(** * Shallow embedding of [src/utils/utils_greedy_bfs.py] (topologiq)

    Coordinates are Python triples of ints, beams are lists of coordinates,
    [NodeBeams] are lists of beams.  Python's [in] on lists is modelled with
    Python's structural equality over a small universal value type, so that
    comparisons between values of different shapes (a tuple against a list)
    behave as in Python.  Python dicts are association lists kept in insertion
    order (assignment to an existing key replaces the value in place), because
    the lattice assembler depends on that order.  Exceptions (IndexError,
    KeyError, ValueError) are [None]. *)

From Stdlib Require Import String Ascii ZArith List Bool Lia.
Set Warnings "-register-all".
Import ListNotations.
Open Scope Z_scope.

(** ** Python values and Python equality *)

Inductive pyval : Type :=
| PInt (z : Z)
| PTuple (l : list pyval)
| PList (l : list pyval).

(** [a == b]: ints by value, tuples and lists element-wise, and a tuple is
    never equal to a list. *)
Fixpoint py_eq (a b : pyval) : bool :=
  match a, b with
  | PInt x, PInt y => Z.eqb x y
  | PTuple xs, PTuple ys | PList xs, PList ys =>
      (fix go (xs ys : list pyval) : bool :=
         match xs, ys with
         | [], [] => true
         | x :: xs', y :: ys' => py_eq x y && go xs' ys'
         | _, _ => false
         end) xs ys
  | _, _ => false
  end.

(** [x in l] for a Python list [l]. *)
Definition py_in (x : pyval) (l : list pyval) : bool := existsb (py_eq x) l.

(** ** Data model (utils.classes) *)

(** StandardCoord *)
Definition coord : Type := (Z * Z * Z)%type.
(** StandardBeam *)
Definition beam : Type := list coord.
(** NodeBeams *)
Definition node_beams : Type := list beam.

Definition v_coord (c : coord) : pyval :=
  let '(x, y, z) := c in PTuple [PInt x; PInt y; PInt z].
Definition v_beam (b : beam) : pyval := PList (map v_coord b).
Definition v_node_beams (nb : node_beams) : pyval := PList (map v_beam nb).

(** [coord in coords] for a list of coordinates. *)
Definition coord_in (c : coord) (l : list coord) : bool :=
  py_in (v_coord c) (map v_coord l).

Definition manhattan (a b : coord) : Z :=
  let '(sx, sy, sz) := a in
  let '(nx, ny, nz) := b in
  Z.abs (nx - sx) + Z.abs (ny - sy) + Z.abs (nz - sz).

(** ** check_is_exit *)

(** [str.lower()] on one character.  Strings are sequences of code points
    below 256 (Latin-1); there [lower()] maps A-Z and the capitals
    U+00C0-U+00DE except U+00D7 to the code point 32 above, and leaves every
    other character alone. *)
Definition py_lower_char (c : ascii) : ascii :=
  let n := nat_of_ascii c in
  if (((65 <=? n) && (n <=? 90)) || ((192 <=? n) && (n <=? 222) && negb (n =? 215)))%nat
  then ascii_of_nat (n + 32) else c.

Fixpoint py_lower (s : string) : string :=
  match s with
  | EmptyString => EmptyString
  | String c s' => String (py_lower_char c) (py_lower s')
  end.

(** [l.count(c)] *)
Definition count_char (c : ascii) (l : list ascii) : nat :=
  length (filter (Ascii.eqb c) l).

(** [for i, disp in enumerate(displacements): if disp != 0: index = i; break],
    from [index = -1]. *)
Fixpoint first_nonzero (i : Z) (displacements : list Z) : Z :=
  match displacements with
  | [] => -1
  | disp :: rest => if negb (disp =? 0) then i else first_nonzero (i + 1) rest
  end.

(** [source_kind] is [None] or a string.  [set(kind_3D)] is iterated in an
    order of its own; at most one of three characters occurs exactly twice,
    so the element picked by [[...][0]] does not depend on that order.
    [None] is the IndexError of [source_kind[k]] on a kind shorter than
    three characters, or of [[...][0]] when no character occurs twice. *)
Definition check_is_exit (source_coord : coord) (source_kind : option string)
    (target_coord : coord) : option bool :=
  let source_kind :=
    match source_kind with
    | Some k => substring 0 3 (py_lower k)
    | None => EmptyString
    end in
  match String.get 0 source_kind, String.get 1 source_kind, String.get 2 source_kind with
  | Some k0, Some k1, Some k2 =>
      let kind_3D := [k0; k1; k2] in
      let exit_marker :=
        if existsb (Ascii.eqb "o") kind_3D then Some "o"%char
        else nth_error (filter (fun i => Nat.eqb (count_char i kind_3D) 2)
                               (nodup ascii_dec kind_3D)) 0 in
      match exit_marker with
      | None => None
      | Some exit_marker =>
          let valid_exit_indices :=
            map fst (filter (fun ic => Ascii.eqb (snd ic) exit_marker)
                            (combine [0; 1; 2] kind_3D)) in
          let '(sx, sy, sz) := source_coord in
          let '(tx, ty, tz) := target_coord in
          let displacements := [tx - sx; ty - sy; tz - sz] in
          let displacement_axis_index := first_nonzero 0 displacements in
          Some (negb (displacement_axis_index =? -1)
                && existsb (Z.eqb displacement_axis_index) valid_exit_indices)
      end
  | _, _, _ => None
  end.

(** ** check_unobstructed *)

(** [1 if d > 0 else -1 if d < 0 else 0] *)
Definition py_sign (d : Z) : Z :=
  if 0 <? d then 1 else if d <? 0 then -1 else 0.

(** [single_beam_for_exit] built by [for i in range(1, length_of_beams)]. *)
Definition exit_beam (source_coord target_coord : coord) (length_of_beams : Z)
  : beam :=
  let '(sx, sy, sz) := source_coord in
  let '(tx, ty, tz) := target_coord in
  let '(d0, d1, d2) := (py_sign (tx - sx), py_sign (ty - sy), py_sign (tz - sz)) in
  map (fun i => (sx + d0 * i, sy + d1 * i, sz + d2 * i))
      (map Z.of_nat (seq 1 (Z.to_nat (length_of_beams - 1)))).

(** [for coord in single_beam_for_exit: if coord in occupied or coord in all_beams: return False]
    where [all_beams : List[NodeBeams]]. *)
Fixpoint obstructed_loop (cells : beam) (occupied : list coord)
    (all_beams : list node_beams) : bool :=
  match cells with
  | [] => false
  | c :: cells' =>
      if py_in (v_coord c) (map v_coord occupied)
         || py_in (v_coord c) (map v_node_beams all_beams)
      then true
      else obstructed_loop cells' occupied all_beams
  end.

Definition check_unobstructed (source_coord target_coord : coord)
    (occupied : list coord) (all_beams : list node_beams) (length_of_beams : Z)
  : bool * beam :=
  let single_beam_for_exit := exit_beam source_coord target_coord length_of_beams in
  match occupied with
  | [] => (true, single_beam_for_exit)
  | _ =>
      if obstructed_loop single_beam_for_exit occupied all_beams
      then (false, single_beam_for_exit)
      else (true, single_beam_for_exit)
  end.

(** ** is_move_allowed *)

Definition is_move_allowed (source_coords next_coords : coord) : bool :=
  manhattan source_coords next_coords mod 3 =? 0.

(** ** generate_tentative_target_positions *)

(** [s.add(c)] on a Python set of coordinates.  Python sets iterate in an
    order of their own; the model keeps insertion order, and no property
    proved below depends on the order. *)
Definition py_set_add (c : coord) (s : list coord) : list coord :=
  if coord_in c s then s else s ++ [c].

(** [range(start, stop, step)] for [step > 0]. *)
Definition py_range (start stop step : Z) : list Z :=
  map (fun k => start + step * Z.of_nat k)
      (seq 0 (Z.to_nat ((stop - start + step - 1) / step))).

(** [random.choice(seq)]: the [n]-th draw of the random generator is the
    oracle value [rnd n]; the chosen index is [rnd n mod len(seq)], so
    ranging over all oracles covers every index a run can draw.  An empty
    sequence raises IndexError. *)
Definition py_choice (rnd : nat -> nat) (n : nat) (l : list Z) : option Z :=
  match l with
  | [] => None
  | d :: _ => Some (nth (rnd n mod length l)%nat l d)
  end.

Definition max_attempts : Z := 500.

(** [if abs(mx)+abs(my)+abs(mz) == step and (cx, cy, cz) not in occupied: valid_targets.add(...)] *)
Definition add_if_valid (source_coords : coord) (step : Z) (occupied_coords : list coord)
    (valid_targets : list coord) (m : Z * Z * Z) : list coord :=
  let '(sx, sy, sz) := source_coords in
  let '(mx, my, mz) := m in
  let c := (sx + mx, sy + my, sz + mz) in
  if (Z.abs mx + Z.abs my + Z.abs mz =? step) && negb (coord_in c occupied_coords)
  then py_set_add c valid_targets else valid_targets.

(** One pass of the body of the [while] loop: two draws ([n] and [n+1]),
    the direct candidate, then the six permutations.  Returns the new set
    and the index of the next draw. *)
Definition far_attempt (rnd : nat -> nat) (n : nat) (source_coords : coord) (step : Z)
    (occupied_coords : list coord) (valid_targets : list coord)
  : option (list coord * nat) :=
  let '(sx, sy, sz) := source_coords in
  let remaining_steps := step in
  match py_choice rnd n (py_range (- remaining_steps) (remaining_steps + 1) 3) with
  | None => None
  | Some move_x =>
  let current_x := sx + move_x in
  let remaining_steps := remaining_steps - Z.abs move_x in
  match py_choice rnd (S n) (py_range (- remaining_steps) (remaining_steps + 1) 3) with
  | None => None
  | Some move_y =>
  let current_y := sy + move_y in
  let remaining_steps := remaining_steps - Z.abs move_y in
  let move_z := remaining_steps in
  let current_z := sz + move_z in
  let valid_targets :=
    if (Z.abs move_x + Z.abs move_y + Z.abs move_z =? step)
       && negb (coord_in (current_x, current_y, current_z) occupied_coords)
    then py_set_add (current_x, current_y, current_z) valid_targets
    else valid_targets in
  let permutations :=
    [(move_x, move_y, move_z); (move_x, move_z, move_y); (move_y, move_x, move_z);
     (move_y, move_z, move_x); (move_z, move_x, move_y); (move_z, move_y, move_x)] in
  let valid_targets :=
    fold_left (add_if_valid source_coords step occupied_coords) permutations valid_targets in
  Some (valid_targets, S (S n))
  end
  end.

(** [while len(valid_targets) < 12 and attempts < max_attempts: ...; attempts += 1].
    [attempts] grows by one per pass, so [Z.to_nat max_attempts + 1] passes of
    fuel are more than the guard ever allows; returns the final set and the
    final value of [attempts]. *)
Fixpoint far_loop (fuel : nat) (rnd : nat -> nat) (n : nat) (source_coords : coord)
    (step : Z) (occupied_coords : list coord) (valid_targets : list coord) (attempts : Z)
  : option (list coord * Z) :=
  match fuel with
  | O => Some (valid_targets, attempts)
  | S fuel' =>
      if (Z.of_nat (length valid_targets) <? 12) && (attempts <? max_attempts) then
        match far_attempt rnd n source_coords step occupied_coords valid_targets with
        | None => None
        | Some (valid_targets', n') =>
            far_loop fuel' rnd n' source_coords step occupied_coords valid_targets'
                     (attempts + 1)
        end
      else Some (valid_targets, attempts)
  end.

Definition far_search (rnd : nat -> nat) (source_coords : coord) (step : Z)
    (occupied_coords : list coord) : option (list coord * Z) :=
  far_loop (S (Z.to_nat max_attempts)) rnd 0 source_coords step occupied_coords [] 0.

Definition not_occupied (occupied_coords : list coord) (c : coord) : bool :=
  negb (coord_in c occupied_coords).

Definition double_moves (source_coords : coord) : list coord :=
  let '(sx, sy, sz) := source_coords in
  fold_left (fun targets dx0 =>
    let targets := fold_left (fun t dy => py_set_add (sx + dx0, sy + dy, sz) t) [-3; 3] targets in
    let targets := fold_left (fun t dx =>
                     fold_left (fun t dz => py_set_add (sx + dx, sy, sz + dz) t) [-3; 3] t)
                     [-3; 3] targets in
    fold_left (fun t dy =>
      fold_left (fun t dz => py_set_add (sx, sy + dy, sz + dz) t) [-3; 3] t)
      [-3; 3] targets)
    [-3; 3] [].

Definition triple_moves (source_coords : coord) : list coord :=
  let '(sx, sy, sz) := source_coords in
  fold_left (fun t dx =>
    fold_left (fun t dy =>
      fold_left (fun t dz =>
        if Z.abs dx + Z.abs dy + Z.abs dz =? 9 then py_set_add (sx + dx, sy + dy, sz + dz) t
        else t) [-3; 3] t) [-3; 3] t) [-3; 3] [].

Definition generate_tentative_target_positions (rnd : nat -> nat) (source_coords : coord)
    (step : Z) (occupied_coords : list coord) : option (list coord) :=
  let '(sx, sy, sz) := source_coords in
  if step =? 3 then
    Some (filter (not_occupied occupied_coords)
            [(sx + 3, sy, sz); (sx - 3, sy, sz); (sx, sy + 3, sz);
             (sx, sy - 3, sz); (sx, sy, sz + 3); (sx, sy, sz - 3)])
  else if step =? 6 then
    Some (filter (not_occupied occupied_coords) (double_moves source_coords))
  else if step =? 9 then
    Some (filter (not_occupied occupied_coords) (triple_moves source_coords))
  else if (9 <? step) && (step mod 3 =? 0) then
    match far_search rnd source_coords step occupied_coords with
    | None => None
    | Some (valid_targets, _) => Some valid_targets
    end
  else Some [].

(** ** prune_all_beams

    The [try]/[except] of the source only guards against malformed input;
    on a [List[NodeBeams]] and a list of coordinates no statement of the
    [try] block raises, so the handler is not modelled. *)
Definition prune_all_beams (all_beams : list node_beams) (occupied_coords : list coord)
  : list node_beams :=
  fold_left (fun new_all_beams node_beams =>
    let new_node_beams :=
      fold_left (fun acc single_beam =>
        if forallb (not_occupied occupied_coords) single_beam
        then acc ++ [single_beam] else acc) node_beams [] in
    match new_node_beams with
    | [] => new_all_beams
    | _ => new_all_beams ++ [new_node_beams]
    end) all_beams [].

(** ** Python dicts: association lists in insertion order *)

Section PyDict.
Context {K V : Type} (keq : K -> K -> bool).

(** [d[k]]; [None] is a KeyError. *)
Fixpoint dict_get (k : K) (d : list (K * V)) : option V :=
  match d with
  | [] => None
  | (k', v') :: d' => if keq k k' then Some v' else dict_get k d'
  end.

(** [d[k] = v]: an existing key keeps its position, a new key goes last. *)
Fixpoint dict_set (k : K) (v : V) (d : list (K * V)) : list (K * V) :=
  match d with
  | [] => [(k, v)]
  | (k', v') :: d' => if keq k k' then (k', v) :: d' else (k', v') :: dict_set k v d'
  end.

End PyDict.

Definition pair_eqb (a b : Z * Z) : bool := (fst a =? fst b) && (snd a =? snd b).

(** ** build_newly_indexed_path_dict *)

(** StandardBlock: a coordinate and a kind. *)
Definition block : Type := (coord * string)%type.

(** One value of [edge_paths]: [{"src_tgt_ids": (start, end), "path_nodes": [...]}]. *)
Record edge_path : Type := {
  src_tgt_ids : Z * Z;
  path_nodes : list block
}.

Definition indexed_path_t : Type := list (Z * block).

(** [for edge_path in edge_paths.values(): max_id = max(max_id, src, tgt)], from [max_id = 0]. *)
Definition max_endpoint_id (edge_paths : list edge_path) : Z :=
  fold_left (fun max_id ep =>
    Z.max (Z.max max_id (fst (src_tgt_ids ep))) (snd (src_tgt_ids ep))) edge_paths 0.

(** The body of the second loop for one edge path: returns [indexed_path]
    and the new [next_id]. *)
Definition index_edge_path (next_id : Z) (ep : edge_path) : option (indexed_path_t * Z) :=
  let '(start_key, end_key) := src_tgt_ids ep in
  let nodes_in_path := path_nodes ep in
  match nodes_in_path with
  | [] => None
  | n0 :: _ =>
      let indexed_path := dict_set Z.eqb start_key n0 [] in
      let '(indexed_path, next_id) :=
        fold_left (fun '(ip, nid) i => (dict_set Z.eqb nid (nth i nodes_in_path n0) ip, nid + 1))
                  (seq 1 (length nodes_in_path - 2)) (indexed_path, next_id) in
      let indexed_path :=
        if (1 <? length nodes_in_path)%nat
        then dict_set Z.eqb end_key (last nodes_in_path n0) indexed_path
        else indexed_path in
      Some (indexed_path, next_id)
  end.

(** [indexed_paths[(start_key, end_key)] = indexed_path] for every edge path. *)
Fixpoint index_paths (edge_paths : list edge_path) (next_id : Z)
    (indexed_paths : list ((Z * Z) * indexed_path_t))
  : option (list ((Z * Z) * indexed_path_t)) :=
  match edge_paths with
  | [] => Some indexed_paths
  | ep :: eps =>
      match index_edge_path next_id ep with
      | None => None
      | Some (indexed_path, next_id') =>
          index_paths eps next_id' (dict_set pair_eqb (src_tgt_ids ep) indexed_path indexed_paths)
      end
  end.

(** The inner loop over [item.items()] with counter [i]: even entries are
    nodes, odd entries become the edge [(keys[i - 1], keys[i + 1])]. *)
Fixpoint latice_item (keys : list Z) (i : nat) (entries : indexed_path_t)
    (latice_nodes : list (Z * block)) (latice_edges : list ((Z * Z) * string))
  : option (list (Z * block) * list ((Z * Z) * string)) :=
  match entries with
  | [] => Some (latice_nodes, latice_edges)
  | (node_key, node_info) :: rest =>
      if Nat.even i then
        latice_item keys (S i) rest (dict_set Z.eqb node_key node_info latice_nodes) latice_edges
      else
        match nth_error keys (i - 1), nth_error keys (S i) with
        | Some k1, Some k2 =>
            latice_item keys (S i) rest latice_nodes
                        (dict_set pair_eqb (k1, k2) (snd node_info) latice_edges)
        | _, _ => None
        end
  end.

Fixpoint latice_loop (items : list ((Z * Z) * indexed_path_t))
    (latice_nodes : list (Z * block)) (latice_edges : list ((Z * Z) * string))
  : option (list (Z * block) * list ((Z * Z) * string)) :=
  match items with
  | [] => Some (latice_nodes, latice_edges)
  | (_, item) :: rest =>
      match latice_item (map fst item) 0 item latice_nodes latice_edges with
      | None => None
      | Some (ns, es) => latice_loop rest ns es
      end
  end.

(** [edge_paths] is the list [edge_paths.values()], in order.  The source
    also builds [final_edges], which is never used afterwards; its indexing
    [edge_ids[i]] has [i < len(block_ids) - 1 <= len(edge_ids)] and cannot
    raise, so it is left out. *)
Definition build_newly_indexed_path_dict (edge_paths : list edge_path)
  : option (list (Z * block) * list ((Z * Z) * string)) :=
  let max_id := max_endpoint_id edge_paths in
  let next_id := max_id + 1 in
  match index_paths edge_paths next_id [] with
  | None => None
  | Some indexed_paths => latice_loop indexed_paths [] []
  end.

(** ** rotate_o_types *)

(** [c in s] for a one-character string [c]. *)
Fixpoint str_in (c : ascii) (s : string) : bool :=
  match s with
  | EmptyString => false
  | String c' s' => Ascii.eqb c c' || str_in c s'
  end.

(** [s.index(c)]; [None] is a ValueError. *)
Fixpoint str_index (c : ascii) (s : string) : option nat :=
  match s with
  | EmptyString => None
  | String c' s' => if Ascii.eqb c c' then Some O else option_map S (str_index c s')
  end.

(** [l.remove(x)] on a list of ints; [None] is a ValueError. *)
Fixpoint list_remove (x : nat) (l : list nat) : option (list nat) :=
  match l with
  | [] => None
  | y :: l' => if Nat.eqb x y then Some l' else option_map (cons y) (list_remove x l')
  end.

(** [np.eye(3, dtype=int)[i]]; [None] is an IndexError. *)
Definition eye3 (i : nat) : option (list Z) :=
  if (i <? 3)%nat then Some (map (fun j => if Nat.eqb i j then 1 else 0) [0; 1; 2]%nat)
  else None.

(** [n * s] for a string [s]. *)
Fixpoint str_repeat (n : nat) (s : string) : string :=
  match n with
  | O => EmptyString
  | S n' => String.append s (str_repeat n' s)
  end.

(** [for j, element in enumerate(row): entry += abs(int(element)) * pipe_type[j]] *)
Fixpoint row_entry (pipe_type : string) (j : nat) (row : list Z) : option string :=
  match row with
  | [] => Some EmptyString
  | element :: row' =>
      match String.get j pipe_type, row_entry pipe_type (S j) row' with
      | Some ch, Some rest => Some (String.append (str_repeat (Z.to_nat (Z.abs element)) (String ch EmptyString)) rest)
      | _, _ => None
      end
  end.

Fixpoint rotate_rows (pipe_type : string) (rows : list (list Z)) (rotated_name : string)
  : option string :=
  match rows with
  | [] => Some rotated_name
  | row :: rows' =>
      match row_entry pipe_type 0 row with
      | None => None
      | Some entry => rotate_rows pipe_type rows' (String.append rotated_name entry)
      end
  end.

(** The source calls [pipe_type.replace("h", "")] without using the
    result; strings are immutable, so [pipe_type] keeps its ["h"]. *)
Definition rotate_o_types (pipe_type : string) : option string :=
  let h_flag := str_in "h" pipe_type in
  match str_index "o" pipe_type with
  | None => None
  | Some io =>
  match list_remove io [0; 1; 2]%nat with
  | None => None
  | Some available_indexes =>
  match nth_error available_indexes 0, nth_error available_indexes 1 with
  | Some a0, Some a1 =>
  match eye3 io, eye3 a1, eye3 a0 with
  | Some e_io, Some e_a1, Some e_a0 =>
      let new_matrix :=
        dict_set Nat.eqb a1 e_a0 (dict_set Nat.eqb a0 e_a1 (dict_set Nat.eqb io e_io [])) in
      match dict_get Nat.eqb 0%nat new_matrix, dict_get Nat.eqb 1%nat new_matrix,
            dict_get Nat.eqb 2%nat new_matrix with
      | Some r0, Some r1, Some r2 =>
          match rotate_rows pipe_type [r0; r1; r2] EmptyString with
          | None => None
          | Some rotated_name =>
              Some (if h_flag then String.append rotated_name "h" else rotated_name)
          end
      | _, _, _ => None
      end
  | _, _, _ => None
  end
  | _, _ => None
  end
  end
  end.

(** ** adjust_hadamards_direction *)

Definition hdm_equivalences : list (string * string) :=
  [("zxoh", "xzoh"); ("xozh", "zoxh"); ("oxzh", "ozxh")]%string.

(** [None] is the KeyError of the inverse lookup. *)
Definition adjust_hadamards_direction (pipe_type : string) : option string :=
  if existsb (String.eqb pipe_type) (map fst hdm_equivalences) then
    dict_get String.eqb pipe_type hdm_equivalences
  else
    let inv_equivalences :=
      fold_left (fun d '(key, value) => dict_set String.eqb value key d) hdm_equivalences [] in
    dict_get String.eqb pipe_type inv_equivalences.

(** The six Hadamard kinds of the table: its keys and its values. *)
Definition hadamard_kinds : list string :=
  ["zxoh"; "xzoh"; "xozh"; "zoxh"; "oxzh"; "ozxh"]%string.

(** Python truthiness of a list. *)
Definition nonempty {A : Type} (l : list A) : bool :=
  match l with [] => false | _ => true end.

(** [source + offset] on the grid. *)
Definition shift (s d : coord) : coord :=
  let '(sx, sy, sz) := s in
  let '(dx, dy, dz) := d in
  (sx + dx, sy + dy, sz + dz).

Definition pm3 (d : Z) : Prop := d = -3 \/ d = 3.

(** A "double move" offset: [+-3] on exactly two axes, [0] on the third. *)
Definition two_axis_move (d : coord) : Prop :=
  let '(dx, dy, dz) := d in
  (pm3 dx /\ pm3 dy /\ dz = 0) \/ (pm3 dx /\ dy = 0 /\ pm3 dz) \/ (dx = 0 /\ pm3 dy /\ pm3 dz).

(** A "single move" offset: [+-3] on exactly one axis, [0] on the others. *)
Definition one_axis_move (d : coord) : Prop :=
  let '(dx, dy, dz) := d in
  (pm3 dx /\ dy = 0 /\ dz = 0) \/ (dx = 0 /\ pm3 dy /\ dz = 0) \/ (dx = 0 /\ dy = 0 /\ pm3 dz).

(** A "triple move" offset: [+-3] on all three axes. *)
Definition corner_move (d : coord) : Prop :=
  let '(dx, dy, dz) := d in pm3 dx /\ pm3 dy /\ pm3 dz.

(** The first three characters of a kind hold exactly one ['o']. *)
Definition exactly_one_o (c0 c1 c2 : ascii) : Prop :=
  (c0 = "o" /\ c1 <> "o" /\ c2 <> "o")%char
  \/ (c0 <> "o" /\ c1 = "o" /\ c2 <> "o")%char
  \/ (c0 <> "o" /\ c1 <> "o" /\ c2 = "o")%char.

(** ** check_for_exits *)

Definition directional_array : list coord :=
  [(1, 0, 0); (-1, 0, 0); (0, 1, 0); (0, -1, 0); (0, 0, 1); (0, 0, -1)].

(** The body of [for d in directional_array]; [target_coords] is
    [node_coords + d].  [None] is an exception of [check_is_exit]. *)
Definition check_for_exits_step (node_coords : coord) (node_kind : option string)
    (occupied : list coord) (all_beams : list node_beams) (length_of_beams : Z)
    (acc : option (Z * node_beams)) (d : coord) : option (Z * node_beams) :=
  match acc with
  | None => None
  | Some (unobstructed_exits_n, node_beams) =>
      let target_coords := shift node_coords d in
      match check_is_exit node_coords node_kind target_coords with
      | None => None
      | Some false => Some (unobstructed_exits_n, node_beams)
      | Some true =>
          let '(is_unobstructed, exit_beam) :=
            check_unobstructed node_coords target_coords occupied all_beams length_of_beams in
          if is_unobstructed
          then Some (unobstructed_exits_n + 1, node_beams ++ [exit_beam])
          else Some (unobstructed_exits_n, node_beams)
      end
  end.

Definition check_for_exits (node_coords : coord) (node_kind : option string)
    (occupied : list coord) (all_beams : list node_beams) (length_of_beams : Z)
  : option (Z * node_beams) :=
  fold_left (check_for_exits_step node_coords node_kind occupied all_beams length_of_beams)
            directional_array (Some (0, [])).

(** Whether the loop body adds a beam for the offset [d]: [d] leads to an
    exit and the exit is unobstructed. *)
Definition exit_open (node_coords : coord) (node_kind : option string)
    (occupied : list coord) (all_beams : list node_beams) (length_of_beams : Z)
    (d : coord) : bool :=
  match check_is_exit node_coords node_kind (shift node_coords d) with
  | Some true => fst (check_unobstructed node_coords (shift node_coords d) occupied
                                         all_beams length_of_beams)
  | _ => false
  end.

(** Whether the offset [d] moves along axis [p]. *)
Definition on_axis (d : coord) (p : nat) : bool :=
  let '(dx, dy, dz) := d in negb (nth p [dx; dy; dz] 0 =? 0).

(** The three characters hold one ['o'], at position [p]. *)
Definition o_position (l0 l1 l2 : ascii) (p : nat) : Prop :=
  match p with
  | O => (l0 = "o" /\ l1 <> "o" /\ l2 <> "o")%char
  | 1%nat => (l0 <> "o" /\ l1 = "o" /\ l2 <> "o")%char
  | 2%nat => (l0 <> "o" /\ l1 <> "o" /\ l2 = "o")%char
  | _ => False
  end.

(** The two characters off position [q] are equal, and the one at [q] differs. *)
Definition odd_one_out (l0 l1 l2 : ascii) (q : nat) : Prop :=
  match q with
  | O => l1 = l2 /\ l0 <> l1
  | 1%nat => l0 = l2 /\ l1 <> l0
  | 2%nat => l0 = l1 /\ l2 <> l0
  | _ => False
  end.

(** Number of strictly intermediate elements of a path, [len(range(1, len(nodes) - 1))]. *)
Definition n_inter (ep : edge_path) : nat := (length (path_nodes ep) - 2)%nat.

(** Intermediate elements of the edge paths before the [j]-th one. *)
Definition id_offset (edge_paths : list edge_path) (j : nat) : Z :=
  Z.of_nat (list_sum (map n_inter (firstn j edge_paths))).

(** The id given to the element at position [i] (with [1 <= i <= len - 2])
    of the [j]-th edge path by the shared counter started at [max_id + 1]. *)
Definition fresh_id (edge_paths : list edge_path) (j i : nat) : Z :=
  max_endpoint_id edge_paths + 1 + id_offset edge_paths j + Z.of_nat i - 1.

(** The [indexed_path] built for one edge path when the counter is at [c]. *)
Definition index_expected (c : Z) (ep : edge_path) : indexed_path_t :=
  let '(start_key, end_key) := src_tgt_ids ep in
  let nodes := path_nodes ep in
  match nodes with
  | [] => []
  | n0 :: _ =>
      let middle := map (fun i => (c + Z.of_nat i - 1, nth i nodes n0))
                        (seq 1 (length nodes - 2)) in
      if (1 <? length nodes)%nat then
        if start_key =? end_key then (start_key, last nodes n0) :: middle
        else (start_key, n0) :: middle ++ [(end_key, last nodes n0)]
      else (start_key, n0) :: middle
  end.

(** The entries at even positions, counting from [i]. *)
Fixpoint even_entries {A : Type} (i : nat) (l : list A) : list A :=
  match l with
  | [] => []
  | x :: l' => if Nat.even i then x :: even_entries (S i) l' else even_entries (S i) l'
  end.

(** The block a path puts under endpoint id [k], if any. *)
Definition endpoint_block (ep : edge_path) (k : Z) : option block :=
  match path_nodes ep with
  | [] => None
  | n0 :: _ =>
      if fst (src_tgt_ids ep) =? k then Some n0
      else if (snd (src_tgt_ids ep) =? k) && (1 <? length (path_nodes ep))%nat
      then Some (last (path_nodes ep) n0)
      else None
  end.

(** * Proofs *)

(** ** Basic facts about the Python-equality model *)

Lemma py_eq_coord (a b : coord) : py_eq (v_coord a) (v_coord b) = true <-> a = b.
Proof.
  destruct a as [[x y] z], b as [[x' y'] z']; simpl.
  rewrite !andb_true_iff, !Z.eqb_eq; split.
  - intros [-> [-> [-> _]]]; reflexivity.
  - intros H; inversion H; subst; auto.
Qed.

Lemma coord_in_iff (c : coord) (l : list coord) : coord_in c l = true <-> In c l.
Proof.
  unfold coord_in, py_in; rewrite existsb_exists; split.
  - intros [v [Hv Heq]]; apply in_map_iff in Hv as [c' [<- Hc']].
    apply py_eq_coord in Heq; subst; exact Hc'.
  - intros Hc; exists (v_coord c); split; [apply in_map; exact Hc|].
    apply py_eq_coord; reflexivity.
Qed.

Lemma coord_in_false (c : coord) (l : list coord) : coord_in c l = false <-> ~ In c l.
Proof.
  rewrite <- coord_in_iff; destruct (coord_in c l); split; congruence.
Qed.

(** A tuple never equals a list: [coord in all_beams] is always false when
    [all_beams] is a [List[NodeBeams]]. *)
Lemma coord_not_in_all_beams (c : coord) (all_beams : list node_beams) :
  py_in (v_coord c) (map v_node_beams all_beams) = false.
Proof.
  unfold py_in; induction all_beams as [|nb l IH]; [reflexivity|].
  simpl; rewrite IH; destruct c as [[x y] z]; reflexivity.
Qed.

Lemma obstructed_loop_occupied_only cells occupied all_beams :
  obstructed_loop cells occupied all_beams = existsb (fun c => coord_in c occupied) cells.
Proof.
  induction cells as [|c cells IH]; [reflexivity|]; simpl.
  rewrite coord_not_in_all_beams, orb_false_r; unfold coord_in.
  destruct (py_in (v_coord c) (map v_coord occupied)); [reflexivity | exact IH].
Qed.

Lemma check_unobstructed_beam s t occ ab L : snd (check_unobstructed s t occ ab L) = exit_beam s t L.
Proof.
  unfold check_unobstructed; destruct occ; [reflexivity|].
  destruct (obstructed_loop _ _ _); reflexivity.
Qed.

(** ** C5 *)

(** C5: with an empty [occupied] list, [check_unobstructed] reports the exit
    as unobstructed, whatever the source, target, beam collection and beam
    length, even when beam cells lie inside beams of [all_beams]. *)
Theorem check_unobstructed_empty_occupied (source_coord target_coord : coord)
    (all_beams : list node_beams) (length_of_beams : Z) :
  fst (check_unobstructed source_coord target_coord [] all_beams length_of_beams) = true.
Proof. reflexivity. Qed.

(** ** C1 *)

(** With a non-empty [occupied] list the verdict only looks at [occupied]:
    [all_beams] plays no part. *)
Lemma check_unobstructed_nonempty s t occ ab L :
  occ <> [] ->
  check_unobstructed s t occ ab L
  = (negb (existsb (fun c => coord_in c occ) (exit_beam s t L)), exit_beam s t L).
Proof.
  intros Hocc; unfold check_unobstructed.
  destruct occ as [|o occ']; [congruence|].
  rewrite obstructed_loop_occupied_only.
  destruct (existsb _ _); reflexivity.
Qed.

(** C1: from (0,0,0) towards (3,0,0) with beam length 3, the synthesized
    cells are (1,0,0) and (2,0,0); (1,0,0) lies in the one beam of
    [all_beams] and no cell is occupied, yet the verdict is [true]
    (unobstructed): the test [coord in all_beams] compares a tuple with
    [NodeBeams] lists and never holds. *)
Theorem check_unobstructed_misses_beam_cell :
  check_unobstructed (0, 0, 0) (3, 0, 0) [(9, 9, 9)] [[[(1, 0, 0); (2, 0, 0)]]] 3
    = (true, [(1, 0, 0); (2, 0, 0)])
  /\ In (1, 0, 0) (exit_beam (0, 0, 0) (3, 0, 0) 3)
  /\ In [(1, 0, 0); (2, 0, 0)] (concat [[[(1, 0, 0); (2, 0, 0)]]]).
Proof. vm_compute. split; [reflexivity|]. split; [left|left]; reflexivity. Qed.

(** ** C3 *)

Lemma manhattan_nonneg a b : 0 <= manhattan a b.
Proof.
  destruct a as [[sx sy] sz], b as [[nx ny] nz]; unfold manhattan.
  pose proof (Z.abs_nonneg (nx - sx)); pose proof (Z.abs_nonneg (ny - sy));
  pose proof (Z.abs_nonneg (nz - sz)); lia.
Qed.

(** C3 (as amended): [is_move_allowed] holds iff the Manhattan distance is a
    multiple of 3, zero included, so it holds when source equals target. *)
Theorem is_move_allowed_iff (source target : coord) :
  is_move_allowed source target = true <-> exists k, 0 <= k /\ manhattan source target = 3 * k.
Proof.
  unfold is_move_allowed; rewrite Z.eqb_eq.
  pose proof (manhattan_nonneg source target) as Hn.
  split.
  - intros Hm; exists (manhattan source target / 3); split.
    + apply Z.div_pos; lia.
    + pose proof (Z.div_mod (manhattan source target) 3); lia.
  - intros [k [_ ->]]; rewrite Z.mul_comm; apply Z_mod_mult.
Qed.

(** C3: the claim that the distance must be a positive multiple of 3 fails at
    source = target = (0,0,0), where [is_move_allowed] returns [true]. *)
Lemma is_move_allowed_same_point :
  is_move_allowed (0, 0, 0) (0, 0, 0) = true
  /\ ~ (exists k, 0 < k /\ manhattan (0, 0, 0) (0, 0, 0) = 3 * k).
Proof.
  split; [reflexivity|].
  intros [k [Hk Hm]].
  assert (manhattan (0, 0, 0) (0, 0, 0) = 0) by reflexivity; lia.
Qed.

(** ** C8 *)

Lemma dict_get_some {K V : Type} (keq : K -> K -> bool) (k : K) (d : list (K * V)) (v : V) :
  dict_get keq k d = Some v -> exists k', In (k', v) d /\ keq k k' = true.
Proof.
  induction d as [|[k' v'] d IH]; simpl; [discriminate|].
  destruct (keq k k') eqn:E.
  - intros [= ->]; exists k'; auto.
  - intros H; destruct (IH H) as [k'' [Hin Hk]]; exists k''; auto.
Qed.

(** C8: [adjust_hadamards_direction] maps each of the six Hadamard kinds to a
    kind that it maps back, and raises (KeyError) on every other string. *)
Theorem adjust_hadamards_direction_involutive :
  (forall k, In k hadamard_kinds ->
     exists k', adjust_hadamards_direction k = Some k'
                /\ adjust_hadamards_direction k' = Some k)
  /\ (forall k, ~ In k hadamard_kinds -> adjust_hadamards_direction k = None).
Proof.
  split.
  - intros k Hk; simpl in Hk.
    repeat (destruct Hk as [<- | Hk]; [eexists; split; vm_compute; reflexivity|]).
    destruct Hk.
  - intros k Hk; unfold adjust_hadamards_direction.
    destruct (existsb (String.eqb k) (map fst hdm_equivalences)) eqn:E.
    + apply existsb_exists in E as [k' [Hk' Heq]].
      apply String.eqb_eq in Heq; subst k'.
      exfalso; apply Hk; simpl in Hk' |- *; tauto.
    + destruct (dict_get _ k _) as [v|] eqn:G; [|reflexivity].
      exfalso; apply dict_get_some in G as [k' [Hin Heq]].
      apply String.eqb_eq in Heq; subst k'.
      apply Hk; vm_compute in Hin; simpl.
      repeat (destruct Hin as [Hin | Hin]; [inversion Hin; tauto|]); destruct Hin.
Qed.

Lemma adjust_hadamards_direction_involutive_witness :
  (exists k', adjust_hadamards_direction "zxoh" = Some k'
              /\ adjust_hadamards_direction k' = Some "zxoh"%string)
  /\ adjust_hadamards_direction "zxo" = None.
Proof.
  split.
  - apply (proj1 adjust_hadamards_direction_involutive). simpl; tauto.
  - apply (proj2 adjust_hadamards_direction_involutive).
    simpl; intros H; repeat (destruct H as [H | H]; [discriminate H|]); exact H.
Defined.

(** ** C7 *)

Lemma fold_keep_app {A : Type} (p : A -> bool) (l acc : list A) :
  fold_left (fun acc x => if p x then acc ++ [x] else acc) l acc = acc ++ filter p l.
Proof.
  revert acc; induction l as [|x l IH]; intros acc; simpl; [symmetry; apply app_nil_r|].
  destruct (p x); rewrite IH; [rewrite <- app_assoc|]; reflexivity.
Qed.

Lemma filter_idem {A : Type} (p : A -> bool) (l : list A) : filter p (filter p l) = filter p l.
Proof.
  induction l as [|x l IH]; simpl; [reflexivity|].
  destruct (p x) eqn:E; simpl; [rewrite E, IH|]; auto.
Qed.

Lemma prune_all_beams_spec (all_beams : list node_beams) (occupied_coords : list coord) :
  prune_all_beams all_beams occupied_coords
  = filter nonempty (map (filter (forallb (not_occupied occupied_coords))) all_beams).
Proof.
  unfold prune_all_beams.
  match goal with |- fold_left ?F _ [] = _ =>
    assert (H : forall l acc, fold_left F l acc
                  = acc ++ filter nonempty
                           (map (filter (forallb (not_occupied occupied_coords))) l)) end.
  { induction l as [|nb l IH]; intros acc; simpl; [symmetry; apply app_nil_r|].
    rewrite fold_keep_app; simpl.
    destruct (filter _ nb) as [|b bs]; simpl; rewrite IH; [reflexivity|].
    rewrite <- app_assoc; reflexivity. }
  apply H.
Qed.

(** C7: pruning is idempotent for a fixed [occupied] list. *)
Theorem prune_all_beams_idempotent (all_beams : list node_beams) (occupied_coords : list coord) :
  prune_all_beams (prune_all_beams all_beams occupied_coords) occupied_coords
  = prune_all_beams all_beams occupied_coords.
Proof.
  rewrite !prune_all_beams_spec.
  induction all_beams as [|nb l IH]; [reflexivity|].
  cbn [map filter].
  destruct (nonempty (filter (forallb (not_occupied occupied_coords)) nb)) eqn:E; [|exact IH].
  cbn [map filter]; rewrite filter_idem, E, IH; reflexivity.
Qed.

(** ** C6 *)

Lemma shift_inj s a b : shift s a = shift s b -> a = b.
Proof.
  destruct s as [[sx sy] sz], a as [[ax ay] az], b as [[bx by'] bz]; simpl.
  intros H; inversion H; f_equal; [f_equal|]; lia.
Qed.

Lemma coord_in_shift s c t : coord_in (shift s c) (map (shift s) t) = coord_in c t.
Proof.
  destruct (coord_in c t) eqn:E.
  - apply coord_in_iff; apply coord_in_iff in E; apply in_map; exact E.
  - apply coord_in_false; apply coord_in_false in E.
    intros H; apply in_map_iff in H as [c' [Hc Hin]].
    apply shift_inj in Hc; subst; contradiction.
Qed.

Lemma py_set_add_shift s c t :
  py_set_add (shift s c) (map (shift s) t) = map (shift s) (py_set_add c t).
Proof.
  unfold py_set_add; rewrite coord_in_shift.
  destruct (coord_in c t); [reflexivity|]; rewrite map_app; reflexivity.
Qed.

(** The set of double moves from [s] is the one from the origin, translated. *)
Lemma double_moves_shift s : double_moves s = map (shift s) (double_moves (0, 0, 0)).
Proof.
  destruct s as [[sx sy] sz].
  unfold double_moves; cbn -[py_set_add].
  repeat rewrite <- py_set_add_shift.
  cbn [map shift]; rewrite !Z.add_0_r; reflexivity.
Qed.

Lemma filter_not_occupied_nil (l : list coord) : filter (not_occupied []) l = l.
Proof. induction l as [|c l IH]; simpl; [reflexivity|]; rewrite IH; reflexivity. Qed.

Lemma NoDup_map_inj {A B : Type} (f : A -> B) (l : list A) :
  (forall a b, f a = f b -> a = b) -> NoDup l -> NoDup (map f l).
Proof.
  intros Hf Hl; induction Hl as [|x l Hx Hl IH]; simpl; constructor; [|exact IH].
  intros H; apply in_map_iff in H as [y [Hy Hin]]; apply Hf in Hy; subst; contradiction.
Qed.

Lemma manhattan_shift s d :
  manhattan s (shift s d) = let '(dx, dy, dz) := d in Z.abs dx + Z.abs dy + Z.abs dz.
Proof.
  destruct s as [[sx sy] sz], d as [[dx dy] dz]; unfold manhattan, shift.
  replace (sx + dx - sx) with dx by lia; replace (sy + dy - sy) with dy by lia;
  replace (sz + dz - sz) with dz by lia; reflexivity.
Qed.

Lemma double_moves_origin_iff d : In d (double_moves (0, 0, 0)) <-> two_axis_move d.
Proof.
  destruct d as [[dx dy] dz]; unfold two_axis_move, pm3; split.
  - intros H; vm_compute in H.
    repeat (destruct H as [H | H]; [inversion H; subst; lia|]); destruct H.
  - intros H; vm_compute.
    destruct H as [[[-> | ->] [[-> | ->] ->]] | [[[-> | ->] [-> [-> | ->]]] | [-> [[-> | ->] [-> | ->]]]]];
      tauto.
Qed.

(** C6: for [step = 6] and no occupied cell, the generator returns exactly
    twelve distinct coordinates, each at Manhattan distance 6 from the
    source, and they are exactly the source moved by [+-3] on two of the
    three axes. *)
Theorem generate_double_moves (rnd : nat -> nat) (s : coord) :
  exists r, generate_tentative_target_positions rnd s 6 [] = Some r
    /\ length r = 12%nat /\ NoDup r
    /\ (forall c, In c r -> manhattan s c = 6)
    /\ (forall c, In c r <-> exists d, two_axis_move d /\ c = shift s d).
Proof.
  assert (Hgen : generate_tentative_target_positions rnd s 6 []
                 = Some (map (shift s) (double_moves (0, 0, 0)))).
  { destruct s as [[sx sy] sz] eqn:Es; unfold generate_tentative_target_positions.
    cbn -[double_moves filter not_occupied].
    rewrite filter_not_occupied_nil, <- Es, <- double_moves_shift; reflexivity. }
  assert (Hmem : forall c, In c (map (shift s) (double_moves (0, 0, 0)))
                           <-> exists d, two_axis_move d /\ c = shift s d).
  { intros c; rewrite in_map_iff; split.
    - intros [d [<- Hd]]; exists d; split; [apply (proj1 (double_moves_origin_iff d)); exact Hd|reflexivity].
    - intros [d [Hd ->]]; exists d; split; [reflexivity|apply (proj2 (double_moves_origin_iff d)); exact Hd]. }
  eexists; split; [exact Hgen|]; split; [|split; [|split]].
  - rewrite length_map; vm_compute; reflexivity.
  - apply NoDup_map_inj; [apply shift_inj|].
    vm_compute; repeat constructor; simpl;
      intros H; repeat (destruct H as [H | H]; [discriminate H|]); exact H.
  - intros c Hc; destruct (proj1 (Hmem c) Hc) as [[[dx dy] dz] [Hd ->]].
    rewrite manhattan_shift; unfold two_axis_move, pm3 in Hd.
    destruct Hd as [[[-> | ->] [[-> | ->] ->]] | [[[-> | ->] [-> [-> | ->]]] | [-> [[-> | ->] [-> | ->]]]]];
      reflexivity.
  - exact Hmem.
Qed.

(** ** C2 *)

Lemma py_range3_bounds lo hi x : In x (py_range lo hi 3) -> lo <= x /\ x < hi.
Proof.
  unfold py_range; intros H; apply in_map_iff in H as [k [<- Hk]].
  apply in_seq in Hk as [_ Hk]; simpl in Hk.
  assert (Hpos : 0 < (hi - lo + 3 - 1) / 3).
  { destruct ((hi - lo + 3 - 1) / 3) eqn:E; simpl in Hk; lia. }
  apply Nat2Z.inj_lt in Hk; rewrite Z2Nat.id in Hk by lia.
  pose proof (Z.mul_div_le (hi - lo + 3 - 1) 3 ltac:(lia)); lia.
Qed.

Lemma py_range3_nonempty lo hi : lo < hi -> py_range lo hi 3 <> [].
Proof.
  intros Hlt; unfold py_range.
  assert (H1 : 1 <= (hi - lo + 3 - 1) / 3) by (apply Z.div_le_lower_bound; lia).
  destruct (Z.to_nat ((hi - lo + 3 - 1) / 3)) eqn:E; [lia|discriminate].
Qed.

Lemma py_choice_some rnd n l : l <> [] -> exists x, py_choice rnd n l = Some x /\ In x l.
Proof.
  destruct l as [|d l']; [congruence|]; intros _; eexists; split; [reflexivity|].
  apply nth_In, Nat.mod_upper_bound; discriminate.
Qed.

Definition far_inv (s : coord) (step : Z) (occ : list coord) (v : list coord) : Prop :=
  NoDup v /\ forall c, In c v -> manhattan s c = step /\ ~ In c occ.

Lemma py_set_add_in c v : In c (py_set_add c v).
Proof.
  unfold py_set_add; destruct (coord_in c v) eqn:E.
  - apply coord_in_iff; exact E.
  - apply in_or_app; right; left; reflexivity.
Qed.

Lemma py_set_add_idem c v : py_set_add c (py_set_add c v) = py_set_add c v.
Proof.
  unfold py_set_add at 1; rewrite (proj2 (coord_in_iff _ _) (py_set_add_in c v)); reflexivity.
Qed.

Lemma py_set_add_length c v : (length (py_set_add c v) <= S (length v))%nat.
Proof.
  unfold py_set_add; destruct (coord_in c v); [lia|]; rewrite length_app; simpl; lia.
Qed.

Lemma py_set_add_inv s step occ c v :
  far_inv s step occ v -> manhattan s c = step -> ~ In c occ ->
  far_inv s step occ (py_set_add c v).
Proof.
  intros [Hnd Hall] Hm Ho; unfold py_set_add.
  destruct (coord_in c v) eqn:E; [split; assumption|].
  apply coord_in_false in E; split.
  - apply NoDup_app; [exact Hnd | constructor; [intros []|constructor] |].
    intros a Ha [<- | []]; contradiction.
  - intros c' Hc'; apply in_app_or in Hc' as [Hc' | [<- | []]]; [apply Hall; exact Hc'|].
    split; assumption.
Qed.

Lemma add_if_valid_inv s step occ v m :
  far_inv s step occ v -> far_inv s step occ (add_if_valid s step occ v m).
Proof.
  destruct s as [[sx sy] sz], m as [[mx my] mz]; unfold add_if_valid; intros Hinv.
  destruct (Z.abs mx + Z.abs my + Z.abs mz =? step) eqn:Es; [|exact Hinv].
  destruct (coord_in (sx + mx, sy + my, sz + mz) occ) eqn:Eo; [exact Hinv|]; simpl.
  apply py_set_add_inv; [exact Hinv| |apply coord_in_false; exact Eo].
  apply Z.eqb_eq in Es; rewrite <- Es.
  apply (manhattan_shift (sx, sy, sz) (mx, my, mz)).
Qed.

Lemma fold_add_if_valid_inv s step occ ms v :
  far_inv s step occ v -> far_inv s step occ (fold_left (add_if_valid s step occ) ms v).
Proof.
  revert v; induction ms as [|m ms IH]; intros v Hv; simpl; [exact Hv|].
  apply IH, add_if_valid_inv, Hv.
Qed.

Lemma add_if_valid_length s step occ v m :
  (length (add_if_valid s step occ v m) <= S (length v))%nat.
Proof.
  destruct s as [[sx sy] sz], m as [[mx my] mz]; unfold add_if_valid.
  destruct (_ && _); [apply py_set_add_length | lia].
Qed.

Lemma fold_add_if_valid_length s step occ ms v :
  (length (fold_left (add_if_valid s step occ) ms v) <= length ms + length v)%nat.
Proof.
  revert v; induction ms as [|m ms IH]; intros v; simpl; [lia|].
  specialize (IH (add_if_valid s step occ v m)).
  pose proof (add_if_valid_length s step occ v m); lia.
Qed.

(** One attempt succeeds, keeps the invariant, and adds at most six
    coordinates: the direct candidate is also the first permutation. *)
Lemma far_attempt_spec rnd n s step occ v :
  0 <= step -> far_inv s step occ v ->
  exists v' n', far_attempt rnd n s step occ v = Some (v', n')
    /\ far_inv s step occ v' /\ (length v' <= 6 + length v)%nat.
Proof.
  intros Hstep Hinv; destruct s as [[sx sy] sz]; unfold far_attempt.
  destruct (py_choice_some rnd n (py_range (- step) (step + 1) 3)) as [mx [Ex Hx]];
    [apply py_range3_nonempty; lia|].
  rewrite Ex; apply py_range3_bounds in Hx.
  destruct (py_choice_some rnd (S n)
              (py_range (- (step - Z.abs mx)) (step - Z.abs mx + 1) 3)) as [my [Ey Hy]];
    [apply py_range3_nonempty; lia|].
  rewrite Ey.
  set (mz := step - Z.abs mx - Z.abs my).
  set (v1 := if (Z.abs mx + Z.abs my + Z.abs mz =? step)
                && negb (coord_in (sx + mx, sy + my, sz + mz) occ)
             then py_set_add (sx + mx, sy + my, sz + mz) v else v).
  assert (Hv1 : far_inv (sx, sy, sz) step occ v1 /\ (length v1 <= S (length v))%nat).
  { pose proof (add_if_valid_inv (sx, sy, sz) step occ v (mx, my, mz) Hinv) as H.
    pose proof (add_if_valid_length (sx, sy, sz) step occ v (mx, my, mz)) as L.
    unfold add_if_valid in H, L; subst v1; split; assumption. }
  assert (Hfirst : add_if_valid (sx, sy, sz) step occ v1 (mx, my, mz) = v1).
  { unfold add_if_valid, v1.
    destruct (_ && _); [apply py_set_add_idem | reflexivity]. }
  assert (Hcons : forall ms, fold_left (add_if_valid (sx, sy, sz) step occ) ((mx, my, mz) :: ms) v1
                            = fold_left (add_if_valid (sx, sy, sz) step occ) ms v1)
    by (intros ms; cbn [fold_left]; rewrite Hfirst; reflexivity).
  do 2 eexists; split; [reflexivity|]; rewrite Hcons; split.
  - apply fold_add_if_valid_inv, Hv1.
  - match goal with |- (length (fold_left _ ?ms _) <= _)%nat =>
      pose proof (fold_add_if_valid_length (sx, sy, sz) step occ ms v1) as L end.
    destruct Hv1 as [_ L1]; cbn [length] in L; lia.
Qed.

Lemma far_loop_spec fuel rnd n s step occ v attempts :
  0 <= step -> far_inv s step occ v -> 0 <= attempts <= max_attempts ->
  (length v <= 17)%nat ->
  exists r attempts', far_loop fuel rnd n s step occ v attempts = Some (r, attempts')
    /\ far_inv s step occ r /\ 0 <= attempts' <= max_attempts /\ (length r <= 17)%nat.
Proof.
  revert n v attempts; induction fuel as [|fuel IH]; intros n v attempts Hstep Hinv Ha Hl; simpl.
  - exists v, attempts; split; [reflexivity|]; split; [exact Hinv|]; split; [exact Ha|exact Hl].
  - destruct ((Z.of_nat (length v) <? 12) && (attempts <? max_attempts)) eqn:G.
    2: exists v, attempts; split; [reflexivity|]; split; [exact Hinv|]; split; [exact Ha|exact Hl].
    apply andb_true_iff in G as [G1 G2]; apply Z.ltb_lt in G1, G2.
    destruct (far_attempt_spec rnd n s step occ v Hstep Hinv) as [v' [n' [-> [Hinv' Hl']]]].
    apply IH; [exact Hstep | exact Hinv' | lia | lia].
Qed.

(** C2 (as amended): for a step above 9 that is a multiple of 3, the
    randomized search always returns, makes at most 500 attempts, and
    returns at most 17 distinct coordinates (the count of 12 is only tested
    before an attempt, and one attempt adds up to 6), each at Manhattan
    distance exactly [step] from the source and not in [occupied]. *)
Theorem generate_far_moves_bounds (rnd : nat -> nat) (s : coord) (step : Z)
    (occupied : list coord) (Hstep : 9 < step) (Hmod : step mod 3 = 0) :
  exists r attempts,
    far_search rnd s step occupied = Some (r, attempts)
    /\ generate_tentative_target_positions rnd s step occupied = Some r
    /\ (length r <= 17)%nat /\ 0 <= attempts <= max_attempts /\ NoDup r
    /\ forall c, In c r -> manhattan s c = step /\ ~ In c occupied.
Proof.
  destruct (far_loop_spec (S (Z.to_nat max_attempts)) rnd 0 s step occupied [] 0)
    as [r [a [Hrun [[Hnd Hall] [Ha Hl]]]]];
    [lia | split; [constructor | intros c []] | unfold max_attempts; lia | simpl; lia |].
  exists r, a; split; [exact Hrun|]; split; [|auto].
  assert (Hfs : far_search rnd s step occupied = Some (r, a)) by exact Hrun.
  destruct s as [[sx sy] sz]; unfold generate_tentative_target_positions.
  replace (step =? 3) with false by (symmetry; apply Z.eqb_neq; lia).
  replace (step =? 6) with false by (symmetry; apply Z.eqb_neq; lia).
  replace (step =? 9) with false by (symmetry; apply Z.eqb_neq; lia).
  replace (9 <? step) with true by (symmetry; apply Z.ltb_lt; lia).
  rewrite Hmod; cbn -[far_search]; rewrite Hfs; reflexivity.
Qed.

Lemma generate_far_moves_bounds_witness :
  9 < 12 /\ 12 mod 3 = 0 /\
  exists r attempts,
    far_search (fun _ => O) (0, 0, 0) 12 [] = Some (r, attempts)
    /\ generate_tentative_target_positions (fun _ => O) (0, 0, 0) 12 [] = Some r
    /\ (length r <= 17)%nat /\ 0 <= attempts <= max_attempts /\ NoDup r
    /\ forall c, In c r -> manhattan (0, 0, 0) c = 12 /\ ~ In c [].
Proof.
  split; [lia|]; split; [reflexivity|].
  apply (generate_far_moves_bounds (fun _ => O) (0, 0, 0) 12 []); [lia | reflexivity].
Defined.

(** C2: a run of the search for [step = 12] whose random draws are
    0, 3, then 0, -3, then -9, 0 (indices 4, 5, 4, 3, 1, 1) returns 17
    candidates after 3 attempts when (0,-3,9) is occupied: more than 12. *)
Lemma generate_far_moves_overshoot :
  option_map (@length coord)
    (generate_tentative_target_positions (fun n => nth n [4; 5; 4; 3; 1; 1]%nat O)
       (0, 0, 0) 12 [(0, -3, 9)])
  = Some 17%nat
  /\ option_map snd (far_search (fun n => nth n [4; 5; 4; 3; 1; 1]%nat O) (0, 0, 0) 12 [(0, -3, 9)])
     = Some 3.
Proof. split; vm_compute; reflexivity. Qed.

(** ** C9 *)

Ltac ascii_neq_facts :=
  repeat match goal with
  | H : ?c <> ?d |- _ =>
      let E1 := fresh "E" in let E2 := fresh "E" in
      assert (E1 : Ascii.eqb d c = false) by (apply Ascii.eqb_neq; congruence);
      assert (E2 : Ascii.eqb c d = false) by (apply Ascii.eqb_neq; exact H);
      clear H
  end.

(** C9: a kind whose three base characters hold exactly one ['o'] and no
    ['h'], with or without the trailing Hadamard marker ["h"], is mapped
    back to itself by two rotations. *)
Theorem rotate_o_types_involutive (c0 c1 c2 : ascii) (hadamard : bool)
    (Ho : exactly_one_o c0 c1 c2)
    (Hh : (c0 <> "h" /\ c1 <> "h" /\ c2 <> "h")%char) :
  let kind := String c0 (String c1 (String c2 (if hadamard then "h" else ""))) in
  exists kind', rotate_o_types kind = Some kind' /\ rotate_o_types kind' = Some kind.
Proof.
  destruct Hh as [H0 [H1 H2]].
  assert (Eho : Ascii.eqb "h" "o" = false) by reflexivity.
  assert (Eoh : Ascii.eqb "o" "h" = false) by reflexivity.
  destruct Ho as [[-> [Ha Hb]] | [[Ha [-> Hb]] | [Ha [Hb ->]]]];
    ascii_neq_facts; destruct hadamard; cbv zeta;
    [exists (String "o" (String c2 (String c1 "h")))
    |exists (String "o" (String c2 (String c1 "")))
    |exists (String c2 (String "o" (String c0 "h")))
    |exists (String c2 (String "o" (String c0 "")))
    |exists (String c1 (String c0 (String "o" "h")))
    |exists (String c1 (String c0 (String "o" "")))];
    split; unfold rotate_o_types;
    repeat (progress (cbn -[Ascii.eqb])
            || match goal with E : Ascii.eqb _ _ = _ |- _ => rewrite E end
            || rewrite Ascii.eqb_refl);
    simpl; reflexivity.
Qed.

Lemma rotate_o_types_involutive_witness :
  exactly_one_o "z" "x" "o" /\ ("z" <> "h" /\ "x" <> "h" /\ "o" <> "h")%char /\
  exists kind', rotate_o_types "zxoh" = Some kind' /\ rotate_o_types kind' = Some "zxoh"%string.
Proof.
  assert (Ho : exactly_one_o "z" "x" "o") by (right; right; repeat split; discriminate).
  assert (Hh : ("z" <> "h" /\ "x" <> "h" /\ "o" <> "h")%char) by (repeat split; discriminate).
  split; [exact Ho|]; split; [exact Hh|].
  exact (rotate_o_types_involutive "z" "x" "o" true Ho Hh).
Defined.

(** ** Python dicts *)

Section DictFacts.
Context {K V : Type} (keq : K -> K -> bool).
Hypothesis keq_spec : forall a b, keq a b = true <-> a = b.

Lemma keq_refl a : keq a a = true.
Proof. apply keq_spec; reflexivity. Qed.

Lemma keq_false a b : a <> b -> keq a b = false.
Proof. intros H; destruct (keq a b) eqn:E; [apply keq_spec in E; contradiction|reflexivity]. Qed.

Lemma dict_set_absent k v (d : list (K * V)) :
  ~ In k (map fst d) -> dict_set keq k v d = d ++ [(k, v)].
Proof.
  induction d as [|[k' v'] d IH]; intros Hk; simpl; [reflexivity|].
  rewrite keq_false by (intros ->; apply Hk; left; reflexivity).
  rewrite IH by (intros H; apply Hk; right; exact H); reflexivity.
Qed.

Lemma dict_set_keys k v (d : list (K * V)) x :
  In x (map fst (dict_set keq k v d)) <-> x = k \/ In x (map fst d).
Proof.
  induction d as [|[k' v'] d IH]; simpl; [firstorder congruence|].
  destruct (keq k k') eqn:E; simpl.
  - apply keq_spec in E; subst; firstorder congruence.
  - rewrite IH; firstorder congruence.
Qed.

Lemma dict_set_nodup k v (d : list (K * V)) :
  NoDup (map fst d) -> NoDup (map fst (dict_set keq k v d)).
Proof.
  induction d as [|[k' v'] d IH]; simpl; intros Hnd; [constructor; [intros []|constructor]|].
  inversion Hnd as [|? ? Hn Hnd']; subst.
  destruct (keq k k') eqn:E; simpl; constructor; auto.
  rewrite dict_set_keys; intros [-> | H]; [|contradiction].
  rewrite keq_refl in E; discriminate.
Qed.

Lemma dict_set_in k v (d : list (K * V)) x y :
  NoDup (map fst d) ->
  In (x, y) (dict_set keq k v d) <-> (x = k /\ y = v) \/ (In (x, y) d /\ x <> k).
Proof.
  induction d as [|[k' v'] d IH]; simpl; intros Hnd.
  - split; [intros [H | []]; inversion H; auto | intros [[-> ->] | [[] _]]; auto].
  - inversion Hnd as [|? ? Hn Hnd']; subst.
    destruct (keq k k') eqn:E.
    + apply keq_spec in E; subst k'; simpl; split.
      * intros [H | H]; [inversion H; auto|].
        right; split; [auto|]; intros Heq; apply Hn, in_map_iff; exists (x, y); split; [simpl; congruence | exact H].
      * intros [[-> ->] | [[H | H] Hne]]; [auto | inversion H; congruence | auto].
    + simpl; rewrite IH by exact Hnd'; split.
      * intros [H | [[-> ->] | [H Hne]]]; [inversion H; subst| |]; auto.
        right; split; [auto|]; intros Heq; subst; rewrite keq_refl in E; discriminate.
      * intros [[-> ->] | [[H | H] Hne]]; auto.
Qed.

Lemma dict_set_in_inv k v (d : list (K * V)) x y :
  In (x, y) (dict_set keq k v d) -> (x = k /\ y = v) \/ In (x, y) d.
Proof.
  induction d as [|[k' v'] d IH]; simpl.
  - intros [H | []]; inversion H; auto.
  - destruct (keq k k') eqn:E; simpl.
    + apply keq_spec in E; subst k'; intros [H | H]; [inversion H; auto | auto].
    + intros [H | H]; [auto|]; destruct (IH H); auto.
Qed.

Lemma dict_fold_in_inv (W : list (K * V)) (d : list (K * V)) x y :
  In (x, y) (fold_left (fun d '(k', v') => dict_set keq k' v' d) W d) -> In (x, y) W \/ In (x, y) d.
Proof.
  revert d; induction W as [|[k v] W IH]; intros d; simpl; [auto|].
  intros H; destruct (IH _ H) as [H' | H']; [auto|].
  destruct (dict_set_in_inv k v d x y H') as [[-> ->] | H'']; auto.
Qed.

Lemma dict_get_fold_set (W : list (K * V)) (d : list (K * V)) k v :
  (exists v', In (k, v') W) -> (forall v', In (k, v') W -> v' = v) ->
  dict_get keq k (fold_left (fun d '(k', v') => dict_set keq k' v' d) W d) = Some v.
Proof.
  revert d; induction W as [|[k1 v1] W IH] using rev_ind; intros d [v' Hin] Hall;
    [destruct Hin|].
  rewrite fold_left_app; simpl.
  set (d' := fold_left _ W d).
  assert (Hget : forall d0, dict_get keq k (dict_set keq k1 v1 d0)
                  = if keq k k1 then Some v1 else dict_get keq k d0).
  { clear - keq_spec; induction d0 as [|[k0 v0] d0 IH]; simpl.
    - reflexivity.
    - destruct (keq k1 k0) eqn:E1; simpl.
      + apply keq_spec in E1; subst k0; destruct (keq k k1); reflexivity.
      + rewrite IH; destruct (keq k k0) eqn:E2, (keq k k1) eqn:E3; try reflexivity.
        apply keq_spec in E2; apply keq_spec in E3; subst; rewrite keq_refl in E1; discriminate. }
  rewrite Hget; destruct (keq k k1) eqn:E.
  - apply keq_spec in E; subst k1; f_equal; apply Hall, in_or_app; right; left; reflexivity.
  - apply in_app_or in Hin as [Hin | [H | []]]; [|inversion H; subst; rewrite keq_refl in E; discriminate].
    apply IH; [eauto|]; intros v'' H; apply Hall, in_or_app; left; exact H.
Qed.

Lemma dict_get_fold_absent (W : list (K * V)) (d : list (K * V)) k :
  (forall v', ~ In (k, v') W) ->
  dict_get keq k (fold_left (fun d '(k', v') => dict_set keq k' v' d) W d) = dict_get keq k d.
Proof.
  revert d; induction W as [|[k1 v1] W IH]; intros d Hnot; simpl; [reflexivity|].
  rewrite IH by (intros v' H; apply (Hnot v'); right; exact H).
  clear IH; induction d as [|[k0 v0] d IHd]; simpl.
  - rewrite keq_false; [reflexivity|]; intros ->; apply (Hnot v1); left; reflexivity.
  - destruct (keq k1 k0) eqn:E1; simpl.
    + apply keq_spec in E1; subst k0.
      rewrite keq_false; [reflexivity|]; intros ->; apply (Hnot v1); left; reflexivity.
    + destruct (keq k k0); [reflexivity|exact IHd].
Qed.

End DictFacts.

Lemma pair_eqb_spec a b : pair_eqb a b = true <-> a = b.
Proof.
  destruct a as [a1 a2], b as [b1 b2]; unfold pair_eqb; simpl.
  rewrite andb_true_iff, !Z.eqb_eq; split; [intros [-> ->]; reflexivity | intros H; inversion H; auto].
Qed.

(** ** The second loop of [build_newly_indexed_path_dict] *)

Lemma index_middle_spec (nodes : list block) (n0 : block) m a ip nid :
  (forall k, In k (map fst ip) -> k < nid) ->
  fold_left (fun '(ip, nid) i => (dict_set Z.eqb nid (nth i nodes n0) ip, nid + 1))
            (seq a m) (ip, nid)
  = (ip ++ map (fun i => (nid + Z.of_nat i - Z.of_nat a, nth i nodes n0)) (seq a m),
     nid + Z.of_nat m).
Proof.
  revert a ip nid; induction m as [|m IH]; intros a ip nid Hlt.
  - simpl; rewrite app_nil_r, Z.add_0_r; reflexivity.
  - cbn [seq fold_left].
    rewrite (dict_set_absent Z.eqb Z.eqb_eq) by (intros H; apply Hlt in H; lia).
    rewrite IH.
    + cbn [map]; rewrite <- app_assoc; cbn [app].
      f_equal; [|lia].
      f_equal; f_equal; [f_equal; lia|].
      apply map_ext_in; intros i Hi; apply in_seq in Hi; f_equal; lia.
    + intros k Hk; rewrite map_app, in_app_iff in Hk; destruct Hk as [Hk | [<- | []]];
        [apply Hlt in Hk|]; simpl in *; lia.
Qed.

Lemma index_edge_path_eq c ep :
  path_nodes ep <> [] -> fst (src_tgt_ids ep) < c -> snd (src_tgt_ids ep) < c ->
  index_edge_path c ep = Some (index_expected c ep, c + Z.of_nat (n_inter ep)).
Proof.
  destruct ep as [[s e] nodes]; unfold index_edge_path, index_expected, n_inter;
    cbn [src_tgt_ids path_nodes fst snd].
  destruct nodes as [|n0 rest]; [congruence|]; intros _ Hs He.
  cbn [dict_set].
  rewrite (index_middle_spec (n0 :: rest) n0) by (intros k [<- | []]; simpl; lia).
  cbn [app].
  destruct (1 <? length (n0 :: rest))%nat; [|reflexivity].
  destruct (s =? e) eqn:Ese.
  - apply Z.eqb_eq in Ese; subst e; cbn [dict_set]; rewrite Z.eqb_refl; reflexivity.
  - rewrite (dict_set_absent Z.eqb Z.eqb_eq); [reflexivity|].
    cbn [map fst]; intros [H | H]; [apply Z.eqb_neq in Ese; congruence|].
    rewrite map_map, in_map_iff in H; destruct H as [i [Hi Hin]]; apply in_seq in Hin;
      cbn [fst] in Hi; lia.
Qed.

(** Entries of [index_expected]: an endpoint, or a counter id at its own position. *)
Lemma index_expected_nth c ep p k v :
  nth_error (index_expected c ep) p = Some (k, v) ->
  ((k = fst (src_tgt_ids ep) \/ k = snd (src_tgt_ids ep))
   /\ (fst (src_tgt_ids ep) <> snd (src_tgt_ids ep) -> endpoint_block ep k = Some v))
  \/ ((1 <= p <= length (path_nodes ep) - 2)%nat /\ k = c + Z.of_nat p - 1
      /\ nth_error (path_nodes ep) p = Some v).
Proof.
  destruct ep as [[s e] nodes]; unfold index_expected, endpoint_block;
    cbn [src_tgt_ids path_nodes fst snd].
  destruct nodes as [|n0 rest]; [destruct p; discriminate|].
  set (middle := map _ _).
  assert (Hmid : forall q, nth_error middle q = Some (k, v) ->
            (1 <= S q <= length (n0 :: rest) - 2)%nat /\ k = c + Z.of_nat (S q) - 1
            /\ nth_error (n0 :: rest) (S q) = Some v).
  { intros q Hq; unfold middle in Hq; rewrite nth_error_map, nth_error_seq in Hq.
    destruct (q <? length (n0 :: rest) - 2)%nat eqn:Eq; [|discriminate].
    apply Nat.ltb_lt in Eq; cbn [option_map] in Hq; injection Hq as <- <-.
    split; [lia|]; split; [lia|].
    rewrite (nth_error_nth' (n0 :: rest) (n := S q) n0) by (simpl in *; lia); reflexivity. }
  destruct (1 <? length (n0 :: rest))%nat eqn:El; [destruct (s =? e) eqn:Ese|].
  - destruct p as [|q].
    + injection 1 as <- _; left; split; [auto|].
      apply Z.eqb_eq in Ese; contradiction.
    + intros Hq; right; apply Hmid, Hq.
  - destruct p as [|q]; [injection 1 as <- <-; left; rewrite Z.eqb_refl; auto|].
    cbn [nth_error]; intros Hq.
    destruct (Nat.lt_ge_cases q (length middle)) as [Hlt | Hge].
    + rewrite nth_error_app1 in Hq by exact Hlt; right; apply Hmid, Hq.
    + rewrite nth_error_app2 in Hq by exact Hge.
      destruct (q - length middle)%nat as [|r]; [|destruct r; discriminate].
      injection Hq as <- <-; left; split; [auto|].
      intros _; rewrite Ese, Z.eqb_refl; reflexivity.
  - destruct p as [|q]; [injection 1 as <- <-; left; rewrite Z.eqb_refl; auto|].
    intros Hq; right; apply Hmid, Hq.
Qed.

Lemma index_expected_mid c ep p b :
  (1 <= p <= length (path_nodes ep) - 2)%nat -> nth_error (path_nodes ep) p = Some b ->
  nth_error (index_expected c ep) p = Some (c + Z.of_nat p - 1, b).
Proof.
  destruct ep as [[s e] nodes]; unfold index_expected; cbn [src_tgt_ids path_nodes fst snd].
  intros Hp Hb; destruct nodes as [|n0 rest]; [destruct p; discriminate|].
  destruct p as [|q]; [lia|].
  assert (Hm : nth_error (map (fun i => (c + Z.of_nat i - 1, nth i (n0 :: rest) n0))
                 (seq 1 (length (n0 :: rest) - 2))) q = Some (c + Z.of_nat (S q) - 1, b)).
  { rewrite nth_error_map, nth_error_seq.
    destruct (q <? length (n0 :: rest) - 2)%nat eqn:Eq; [|apply Nat.ltb_ge in Eq; lia].
    cbn [option_map]; f_equal; f_equal.
    apply nth_error_nth; exact Hb. }
  destruct (1 <? length (n0 :: rest))%nat; [destruct (s =? e)|]; cbn [nth_error]; auto.
  rewrite nth_error_app1; [exact Hm|].
  apply nth_error_Some; congruence.
Qed.

Lemma index_expected_length c ep :
  fst (src_tgt_ids ep) <> snd (src_tgt_ids ep) ->
  length (index_expected c ep) = length (path_nodes ep).
Proof.
  destruct ep as [[s e] nodes]; unfold index_expected; cbn [src_tgt_ids path_nodes fst snd].
  intros Hne; destruct nodes as [|n0 rest]; [reflexivity|].
  rewrite (proj2 (Z.eqb_neq s e) Hne).
  destruct (1 <? length (n0 :: rest))%nat eqn:El.
  - apply Nat.ltb_lt in El; cbn [length] in *; rewrite length_app, length_map, length_seq.
    cbn [length]; lia.
  - apply Nat.ltb_ge in El; cbn [length] in *; rewrite length_map, length_seq; lia.
Qed.

(** The endpoint entries sit at even positions of an odd-length path. *)
Lemma index_expected_endpoint c ep k b :
  fst (src_tgt_ids ep) <> snd (src_tgt_ids ep) -> Nat.odd (length (path_nodes ep)) = true ->
  endpoint_block ep k = Some b ->
  exists p, Nat.even p = true /\ nth_error (index_expected c ep) p = Some (k, b).
Proof.
  destruct ep as [[s e] nodes]; unfold index_expected, endpoint_block;
    cbn [src_tgt_ids path_nodes fst snd].
  intros Hne Hodd; destruct nodes as [|n0 rest]; [discriminate|].
  rewrite (proj2 (Z.eqb_neq s e) Hne).
  destruct (s =? k) eqn:Esk.
  - injection 1 as <-; apply Z.eqb_eq in Esk; subst k; exists 0%nat; split; [reflexivity|].
    destruct (1 <? length (n0 :: rest))%nat; reflexivity.
  - destruct ((e =? k) && (1 <? length (n0 :: rest))%nat) eqn:Eek; [|discriminate].
    injection 1 as <-; apply andb_true_iff in Eek as [Eek El]; apply Z.eqb_eq in Eek; subst k.
    rewrite El; exists (length (n0 :: rest) - 1)%nat.
    apply Nat.ltb_lt in El.
    split.
    + rewrite <- Nat.negb_odd, Nat.odd_sub by lia; rewrite Hodd; reflexivity.
    + cbn [length] in *; replace (S (length rest) - 1)%nat with (S (length rest - 1)) by lia.
      cbn [nth_error]; rewrite nth_error_app2; rewrite length_map, length_seq; [|lia].
      replace (length rest - 1 - (S (length rest) - 2))%nat with 0%nat by lia; reflexivity.
Qed.

Lemma max_endpoint_id_fold (eps : list edge_path) m :
  m <= fold_left (fun max_id ep =>
         Z.max (Z.max max_id (fst (src_tgt_ids ep))) (snd (src_tgt_ids ep))) eps m
  /\ forall ep, In ep eps ->
       fst (src_tgt_ids ep) <= fold_left (fun max_id ep =>
         Z.max (Z.max max_id (fst (src_tgt_ids ep))) (snd (src_tgt_ids ep))) eps m
       /\ snd (src_tgt_ids ep) <= fold_left (fun max_id ep =>
         Z.max (Z.max max_id (fst (src_tgt_ids ep))) (snd (src_tgt_ids ep))) eps m.
Proof.
  revert m; induction eps as [|ep eps IH]; intros m; cbn [fold_left].
  - split; [lia | intros _ []].
  - destruct (IH (Z.max (Z.max m (fst (src_tgt_ids ep))) (snd (src_tgt_ids ep)))) as [Hm Hall].
    split; [lia|]; intros ep' [<- | Hin]; [lia | apply Hall, Hin].
Qed.

(** [max_id] is at least 0 and at least every endpoint id. *)
Lemma max_endpoint_id_bound eps :
  0 <= max_endpoint_id eps
  /\ forall ep, In ep eps ->
       fst (src_tgt_ids ep) <= max_endpoint_id eps /\ snd (src_tgt_ids ep) <= max_endpoint_id eps.
Proof. apply max_endpoint_id_fold. Qed.

Lemma index_paths_nonempty eps c IP IP' :
  index_paths eps c IP = Some IP' -> forall ep, In ep eps -> path_nodes ep <> [].
Proof.
  revert c IP; induction eps as [|ep eps IH]; intros c IP H ep' Hin; [destruct Hin|].
  cbn [index_paths] in H.
  destruct (index_edge_path c ep) as [[ip c']|] eqn:E; [|discriminate].
  destruct Hin as [<- | Hin]; [|eapply IH; eauto].
  unfold index_edge_path in E; destruct (src_tgt_ids ep); destruct (path_nodes ep); congruence.
Qed.

(** The list [indexed_paths.values()] after the second loop: the entry of a
    pair is the indexed path of the last edge path with that pair. *)
Lemma index_paths_spec eps c IP :
  (forall ep, In ep eps ->
     path_nodes ep <> [] /\ fst (src_tgt_ids ep) < c /\ snd (src_tgt_ids ep) < c) ->
  NoDup (map fst IP) ->
  exists IP', index_paths eps c IP = Some IP' /\ NoDup (map fst IP') /\
  forall P it, In (P, it) IP' <->
    (exists j ep, nth_error eps j = Some ep /\ P = src_tgt_ids ep
       /\ it = index_expected (c + Z.of_nat (list_sum (map n_inter (firstn j eps)))) ep
       /\ forall k ep', (j < k)%nat -> nth_error eps k = Some ep' -> src_tgt_ids ep' <> P)
    \/ (In (P, it) IP /\ forall ep, In ep eps -> src_tgt_ids ep <> P).
Proof.
  revert c IP; induction eps as [|ep eps IH]; intros c IP Hall Hnd.
  - exists IP; split; [reflexivity|]; split; [exact Hnd|]; intros P it; split.
    + intros H; right; split; [exact H | intros _ []].
    + intros [[j [ep [H _]]] | [H _]]; [destruct j; discriminate | exact H].
  - destruct (Hall ep (or_introl eq_refl)) as [Hne [Hs He]].
    set (c' := c + Z.of_nat (n_inter ep)).
    set (IP1 := dict_set pair_eqb (src_tgt_ids ep) (index_expected c ep) IP).
    destruct (IH c' IP1) as [IP' [Heq [Hnd' Hiff]]].
    + intros ep' Hin; destruct (Hall ep' (or_intror Hin)) as [? [? ?]]; unfold c'; repeat split; auto; lia.
    + apply (dict_set_nodup pair_eqb pair_eqb_spec), Hnd.
    + exists IP'; split; [cbn [index_paths]; rewrite index_edge_path_eq by assumption; exact Heq|].
      split; [exact Hnd'|]; intros P it; rewrite Hiff; unfold IP1;
        rewrite (dict_set_in pair_eqb pair_eqb_spec) by exact Hnd; split.
      * intros [[j [ep' [Hj [HP [Hit Hlast]]]]] | [[[HP Hit] | [HIP HPne]] Hnone]].
        -- left; exists (S j), ep'; split; [exact Hj|]; split; [exact HP|]; split.
           ++ rewrite Hit; unfold c'; cbn [firstn map list_sum fold_right].
              f_equal; unfold list_sum; lia.
           ++ intros [|k] ep'' Hk Hk'; [lia|]; apply (Hlast k ep''); [lia | exact Hk'].
        -- left; exists 0%nat, ep; split; [reflexivity|]; split; [exact HP|]; split.
           ++ rewrite Hit; f_equal; cbn; lia.
           ++ intros [|k] ep'' Hk Hk'; [lia|]; apply Hnone; eapply nth_error_In; exact Hk'.
        -- right; split; [exact HIP|]; intros ep' [<- | Hin]; [congruence | apply Hnone, Hin].
      * intros [[[|j] [ep' [Hj [HP [Hit Hlast]]]]] | [HIP Hnone]].
        -- injection Hj as <-; right; split; [left; split; [exact HP|]|].
           ++ rewrite Hit; f_equal; cbn; lia.
           ++ intros ep' Hin; apply In_nth_error in Hin as [k Hk].
              apply (Hlast (S k) ep'); [lia | exact Hk].
        -- left; exists j, ep'; split; [exact Hj|]; split; [exact HP|]; split.
           ++ rewrite Hit; unfold c'; cbn [firstn map list_sum fold_right]; f_equal; unfold list_sum; lia.
           ++ intros k ep'' Hk Hk'; apply (Hlast (S k) ep''); [lia | exact Hk'].
        -- right; split.
           ++ right; split; [exact HIP|]; intros HP; apply (Hnone ep); [left|]; auto.
           ++ intros ep' Hin; apply Hnone; right; exact Hin.
Qed.

Lemma id_offset_mono eps j k ep :
  nth_error eps j = Some ep -> (j < k)%nat ->
  (list_sum (map n_inter (firstn j eps)) + n_inter ep
   <= list_sum (map n_inter (firstn k eps)))%nat.
Proof.
  revert j k; induction eps as [|ep0 eps IH]; intros [|j] [|k] Hj Hlt;
    cbn [nth_error] in Hj; try discriminate; try lia.
  - injection Hj as ->; cbn [firstn map]; unfold list_sum; cbn [fold_right]; lia.
  - specialize (IH j k Hj ltac:(lia)); cbn [firstn map]; unfold list_sum in *;
      cbn [fold_right]; lia.
Qed.

(** Two counter ids of valid positions are equal only at the same position. *)
Lemma fresh_id_inj eps j i ep k p ep' :
  nth_error eps j = Some ep -> (1 <= i <= n_inter ep)%nat ->
  nth_error eps k = Some ep' -> (1 <= p <= n_inter ep')%nat ->
  fresh_id eps j i = fresh_id eps k p -> j = k /\ i = p.
Proof.
  unfold fresh_id, id_offset; intros Hj Hi Hk Hp Heq.
  destruct (Nat.lt_total j k) as [Hlt | [-> | Hlt]].
  - pose proof (id_offset_mono eps j k ep Hj Hlt); lia.
  - rewrite Hj in Hk; injection Hk as ->; split; [reflexivity | lia].
  - pose proof (id_offset_mono eps k j ep' Hk Hlt); lia.
Qed.

(** ** The third loop of [build_newly_indexed_path_dict] *)

Lemma even_entries_in {A : Type} i (l : list A) x :
  In x (even_entries i l) <-> exists p, nth_error l p = Some x /\ Nat.even (i + p) = true.
Proof.
  revert i; induction l as [|a l IH]; intros i; cbn [even_entries].
  - split; [intros [] | intros [p [H _]]; destruct p; discriminate].
  - assert (Hsh : forall p, Nat.even (S i + p) = Nat.even (i + S p))
      by (intros p; f_equal; lia).
    destruct (Nat.even i) eqn:Ei; [cbn [In]|]; rewrite ?IH; split.
    + intros [<- | [p [Hp He]]]; [exists 0%nat; rewrite Nat.add_0_r; auto|].
      exists (S p); rewrite <- Hsh; auto.
    + intros [[|p] [Hp He]]; [injection Hp; auto|]; right; exists p; rewrite Hsh; auto.
    + intros [p [Hp He]]; exists (S p); rewrite <- Hsh; auto.
    + intros [[|p] [Hp He]]; [rewrite Nat.add_0_r, Ei in He; discriminate|].
      exists p; rewrite Hsh; auto.
Qed.

Lemma latice_item_spec keys i entries ns es ns' es' :
  latice_item keys i entries ns es = Some (ns', es') ->
  ns' = fold_left (fun d '(k, v) => dict_set Z.eqb k v d) (even_entries i entries) ns
  /\ forall k1 k2, In (k1, k2) (map fst es') ->
       In (k1, k2) (map fst es) \/ (In k1 keys /\ In k2 keys).
Proof.
  revert i ns es; induction entries as [|[k v] rest IH]; intros i ns es; cbn [latice_item even_entries].
  - injection 1 as <- <-; split; [reflexivity | auto].
  - destruct (Nat.even i).
    + intros H; destruct (IH _ _ _ H) as [-> Hes]; split; [reflexivity | exact Hes].
    + destruct (nth_error keys (i - 1)) as [a|] eqn:E1; [|discriminate].
      destruct (nth_error keys (S i)) as [b|] eqn:E2; [|discriminate].
      intros H; destruct (IH _ _ _ H) as [-> Hes]; split; [reflexivity|].
      intros k1 k2 Hin; destruct (Hes k1 k2 Hin) as [Hin' | Hk]; [|auto].
      apply (dict_set_keys pair_eqb pair_eqb_spec) in Hin' as [Heq | Hin']; [|auto].
      injection Heq as -> ->; right; split; eapply nth_error_In; eassumption.
Qed.

(** With an odd number of entries no [keys[i + 1]] is out of range. *)
Lemma latice_item_some keys i entries ns es :
  length keys = (i + length entries)%nat -> Nat.odd (length keys) = true ->
  exists ns' es', latice_item keys i entries ns es = Some (ns', es').
Proof.
  revert i ns es; induction entries as [|[k v] rest IH]; intros i ns es Hlen Hodd;
    cbn [latice_item]; [eauto|].
  cbn [length] in Hlen.
  destruct (Nat.even i) eqn:Ei; [apply IH; [lia | exact Hodd]|].
  destruct (nth_error keys (i - 1)) as [a|] eqn:E1; [|apply nth_error_None in E1; lia].
  destruct (nth_error keys (S i)) as [b|] eqn:E2.
  - apply IH; [lia | exact Hodd].
  - apply nth_error_None in E2.
    assert (Hi : length keys = S i) by lia.
    rewrite Hi, Nat.odd_succ, Ei in Hodd; discriminate.
Qed.

Lemma latice_loop_spec items ns es ns' es' :
  latice_loop items ns es = Some (ns', es') ->
  ns' = fold_left (fun d '(k, v) => dict_set Z.eqb k v d)
          (concat (map (fun '(_, it) => even_entries 0 it) items)) ns
  /\ forall k1 k2, In (k1, k2) (map fst es') ->
       In (k1, k2) (map fst es)
       \/ exists P it, In (P, it) items /\ In k1 (map fst it) /\ In k2 (map fst it).
Proof.
  revert ns es; induction items as [|[P it] rest IH]; intros ns es; cbn [latice_loop].
  - injection 1 as <- <-; split; [reflexivity | auto].
  - destruct (latice_item (map fst it) 0 it ns es) as [[ns1 es1]|] eqn:E; [|discriminate].
    intros H; destruct (latice_item_spec _ _ _ _ _ _ _ E) as [-> Hes1].
    destruct (IH _ _ H) as [-> Hes]; split.
    + cbn [map concat]; rewrite fold_left_app; reflexivity.
    + intros k1 k2 Hin; destruct (Hes _ _ Hin) as [H1 | [P' [it' [Hin' Hk]]]].
      * destruct (Hes1 _ _ H1) as [H2 | Hk]; [auto|].
        right; exists P, it; split; [left; reflexivity | exact Hk].
      * right; exists P', it'; split; [right; exact Hin' | exact Hk].
Qed.

Lemma latice_loop_some items ns es :
  (forall P it, In (P, it) items -> Nat.odd (length it) = true) ->
  exists ns' es', latice_loop items ns es = Some (ns', es').
Proof.
  revert ns es; induction items as [|[P it] rest IH]; intros ns es Hodd; cbn [latice_loop]; [eauto|].
  destruct (latice_item_some (map fst it) 0 it ns es) as [ns1 [es1 E]].
  - rewrite length_map; reflexivity.
  - rewrite length_map; apply (Hodd P); left; reflexivity.
  - rewrite E; apply IH; intros P' it' Hin; apply (Hodd P'); right; exact Hin.
Qed.

Lemma writes_in (items : list ((Z * Z) * indexed_path_t)) k v :
  In (k, v) (concat (map (fun '(_, it) => even_entries 0 it) items))
  <-> exists P it p, In (P, it) items /\ nth_error it p = Some (k, v) /\ Nat.even p = true.
Proof.
  rewrite in_concat; split.
  - intros [l [Hl Hin]]; apply in_map_iff in Hl as [[P it] [<- HPit]].
    apply even_entries_in in Hin as [p [Hp He]]; exists P, it, p; auto.
  - intros [P [it [p [HPit [Hp He]]]]]; exists (even_entries 0 it); split.
    + apply in_map_iff; exists (P, it); auto.
    + apply even_entries_in; exists p; auto.
Qed.

(** ** The whole of [build_newly_indexed_path_dict] *)

Lemma build_items eps nodes edges :
  build_newly_indexed_path_dict eps = Some (nodes, edges) ->
  exists IP,
    (forall P it, In (P, it) IP <->
       exists j ep, nth_error eps j = Some ep /\ P = src_tgt_ids ep
         /\ it = index_expected (max_endpoint_id eps + 1 + id_offset eps j) ep
         /\ forall k ep', (j < k)%nat -> nth_error eps k = Some ep' -> src_tgt_ids ep' <> P)
    /\ latice_loop IP [] [] = Some (nodes, edges).
Proof.
  unfold build_newly_indexed_path_dict.
  destruct (index_paths eps (max_endpoint_id eps + 1) []) as [IP|] eqn:E; [|discriminate].
  intros H; pose proof (index_paths_nonempty _ _ _ _ E) as Hne.
  destruct (max_endpoint_id_bound eps) as [H0 Hmax].
  destruct (index_paths_spec eps (max_endpoint_id eps + 1) []) as [IP' [E' [_ Hiff]]].
  - intros ep Hin; specialize (Hmax ep Hin); repeat split; [apply Hne; exact Hin | lia | lia].
  - constructor.
  - rewrite E in E'; injection E' as <-; exists IP; split; [|exact H].
    intros P it; rewrite Hiff; unfold id_offset; split.
    + intros [Hx | [[] _]]; exact Hx.
    + intros Hx; left; exact Hx.
Qed.

Lemma fresh_id_gt eps j i : (1 <= i)%nat -> max_endpoint_id eps < fresh_id eps j i.
Proof. unfold fresh_id, id_offset; lia. Qed.

Lemma endpoint_block_key ep k b :
  endpoint_block ep k = Some b -> k = fst (src_tgt_ids ep) \/ k = snd (src_tgt_ids ep).
Proof.
  unfold endpoint_block; destruct (path_nodes ep); [discriminate|].
  destruct (fst (src_tgt_ids ep) =? k) eqn:E1; [apply Z.eqb_eq in E1; auto|].
  destruct (snd (src_tgt_ids ep) =? k) eqn:E2; [apply Z.eqb_eq in E2; auto | discriminate].
Qed.

(** [endpoint_block] only yields the end id of a path with more than one element. *)
Lemma endpoint_block_key_len ep k b :
  endpoint_block ep k = Some b ->
  k = fst (src_tgt_ids ep) \/ (k = snd (src_tgt_ids ep) /\ (1 < length (path_nodes ep))%nat).
Proof.
  unfold endpoint_block; destruct (path_nodes ep) as [|n0 rest]; [discriminate|].
  destruct (fst (src_tgt_ids ep) =? k) eqn:E1; [apply Z.eqb_eq in E1; auto|].
  destruct ((snd (src_tgt_ids ep) =? k) && (1 <? length (n0 :: rest))%nat) eqn:E2; [|discriminate].
  apply andb_true_iff in E2 as [E2 E3]; apply Z.eqb_eq in E2; apply Nat.ltb_lt in E3; auto.
Qed.

Lemma endpoint_block_start ep n0 rest :
  path_nodes ep = n0 :: rest -> endpoint_block ep (fst (src_tgt_ids ep)) = Some n0.
Proof. unfold endpoint_block; intros ->; rewrite Z.eqb_refl; reflexivity. Qed.

Lemma endpoint_block_end ep n0 rest :
  fst (src_tgt_ids ep) <> snd (src_tgt_ids ep) -> path_nodes ep = n0 :: rest -> rest <> [] ->
  endpoint_block ep (snd (src_tgt_ids ep)) = Some (last (n0 :: rest) n0).
Proof.
  unfold endpoint_block; intros Hne -> Hr.
  rewrite (proj2 (Z.eqb_neq _ _) Hne), Z.eqb_refl; cbn [andb].
  destruct rest; [congruence | reflexivity].
Qed.

(** An entry of a stored indexed path: an endpoint id, or the counter id of its position. *)
Lemma item_entry eps j ep p k v :
  nth_error eps j = Some ep ->
  nth_error (index_expected (max_endpoint_id eps + 1 + id_offset eps j) ep) p = Some (k, v) ->
  (k <= max_endpoint_id eps
   /\ (fst (src_tgt_ids ep) <> snd (src_tgt_ids ep) -> endpoint_block ep k = Some v))
  \/ ((1 <= p <= n_inter ep)%nat /\ k = fresh_id eps j p /\ nth_error (path_nodes ep) p = Some v).
Proof.
  intros Hj Hp; destruct (max_endpoint_id_bound eps) as [_ Hmax].
  destruct (index_expected_nth _ _ _ _ _ Hp) as [[Hk Heb] | [Hr [Hk Hv]]].
  - left; split; [|exact Heb].
    destruct (Hmax ep (nth_error_In _ _ Hj)); destruct Hk; subst; lia.
  - right; unfold fresh_id, n_inter; split; [lia|]; split; [lia | exact Hv].
Qed.

Lemma nodup_map_nth {A B : Type} (f : A -> B) l j k a b :
  NoDup (map f l) -> nth_error l j = Some a -> nth_error l k = Some b -> f a = f b -> j = k.
Proof.
  intros Hnd Ha Hb Hf; apply (proj1 (NoDup_nth_error (map f l)) Hnd).
  - rewrite length_map; apply nth_error_Some; congruence.
  - rewrite !nth_error_map, Ha, Hb; cbn; congruence.
Qed.

(** C4 (amended). Let every path have odd length and distinct start and end
    ids, let the (start id, end id) pairs be pairwise distinct, and let an
    endpoint id shared by several paths always denote the same block. Then
    [build_newly_indexed_path_dict] returns, and its nodes mapping sends each
    endpoint id to its block: the start id to the first element and, when the
    path has more than one element, the end id to the last. A single-element
    path only writes its start id: its end id is no key of the nodes mapping
    unless another path writes it (as a start id, or as the end id of a
    longer path). The element at position [i] of the [j]-th path, [1 <= i <= len - 2],
    has the counter id [fresh_id edge_paths j i]: [max(0, max endpoint id) + 1]
    plus the number of intermediate elements before it, one shared counter
    over all paths. Counter ids exceed every endpoint id and are pairwise
    distinct. The nodes mapping holds the element under its counter id
    exactly when [i] is even (a block); odd-position elements (pipes) get no
    key. Every key is an endpoint id or the counter id of an even-position
    element. *)
Theorem build_newly_indexed_path_dict_ids (edge_paths : list edge_path)
  (Hodd : forall ep, In ep edge_paths -> Nat.odd (length (path_nodes ep)) = true)
  (Hne : forall ep, In ep edge_paths -> fst (src_tgt_ids ep) <> snd (src_tgt_ids ep))
  (Hnd : NoDup (map src_tgt_ids edge_paths))
  (Hcons : forall ep ep' k b b', In ep edge_paths -> In ep' edge_paths ->
             endpoint_block ep k = Some b -> endpoint_block ep' k = Some b' -> b = b') :
  exists nodes edges,
    build_newly_indexed_path_dict edge_paths = Some (nodes, edges)
    /\ (forall ep k b, In ep edge_paths -> endpoint_block ep k = Some b ->
          dict_get Z.eqb k nodes = Some b)
    /\ (forall ep n0 rest, In ep edge_paths -> path_nodes ep = n0 :: rest ->
          dict_get Z.eqb (fst (src_tgt_ids ep)) nodes = Some n0
          /\ (rest <> [] ->
              dict_get Z.eqb (snd (src_tgt_ids ep)) nodes = Some (last (n0 :: rest) n0)))
    /\ (forall ep n0, In ep edge_paths -> path_nodes ep = [n0] ->
          (forall ep', In ep' edge_paths ->
             fst (src_tgt_ids ep') <> snd (src_tgt_ids ep)
             /\ (snd (src_tgt_ids ep') = snd (src_tgt_ids ep) -> length (path_nodes ep') = 1%nat)) ->
          dict_get Z.eqb (snd (src_tgt_ids ep)) nodes = None)
    /\ (forall j ep i b, nth_error edge_paths j = Some ep -> (1 <= i <= n_inter ep)%nat ->
          nth_error (path_nodes ep) i = Some b ->
          max_endpoint_id edge_paths < fresh_id edge_paths j i
          /\ dict_get Z.eqb (fresh_id edge_paths j i) nodes
             = if Nat.even i then Some b else None)
    /\ (forall j ep i k ep' p, nth_error edge_paths j = Some ep -> (1 <= i <= n_inter ep)%nat ->
          nth_error edge_paths k = Some ep' -> (1 <= p <= n_inter ep')%nat ->
          fresh_id edge_paths j i = fresh_id edge_paths k p -> j = k /\ i = p)
    /\ (forall k v, In (k, v) nodes ->
          (exists ep, In ep edge_paths /\ endpoint_block ep k = Some v)
          \/ (exists j ep i, nth_error edge_paths j = Some ep /\ (1 <= i <= n_inter ep)%nat
                /\ Nat.even i = true /\ k = fresh_id edge_paths j i
                /\ nth_error (path_nodes ep) i = Some v)).
Proof.
  set (c := max_endpoint_id edge_paths + 1).
  destruct (max_endpoint_id_bound edge_paths) as [H0 Hmax].
  destruct (index_paths_spec edge_paths c []) as [IP [EIP [_ Hiff]]].
  { intros ep Hin; pose proof (Hmax ep Hin); repeat split; [|unfold c; lia | unfold c; lia].
    intros Hn; specialize (Hodd ep Hin); rewrite Hn in Hodd; discriminate. }
  { constructor. }
  assert (Hstored : forall j ep, nth_error edge_paths j = Some ep ->
            In (src_tgt_ids ep, index_expected (c + id_offset edge_paths j) ep) IP).
  { intros j ep Hj; apply Hiff; left; exists j, ep; split; [exact Hj|]; split; [reflexivity|].
    split; [reflexivity|]; intros k ep' Hjk Hk Heq.
    pose proof (nodup_map_nth _ _ _ _ _ _ Hnd Hk Hj Heq); lia. }
  assert (Hitem : forall P it, In (P, it) IP -> exists j ep, nth_error edge_paths j = Some ep
            /\ it = index_expected (c + id_offset edge_paths j) ep).
  { intros P it H; apply Hiff in H as [[j [ep [Hj [_ [Hit _]]]]] | [[] _]].
    exists j, ep; split; [exact Hj | exact Hit]. }
  destruct (latice_loop_some IP [] []) as [nodes [edges Hloop]].
  { intros P it H; destruct (Hitem P it H) as [j [ep [Hj ->]]].
    pose proof (nth_error_In _ _ Hj) as Hin.
    rewrite index_expected_length by (apply Hne; exact Hin); apply Hodd, Hin. }
  destruct (latice_loop_spec _ _ _ _ _ Hloop) as [Hnodes _].
  set (W := concat (map (fun '(_, it) => even_entries 0 it) IP)) in Hnodes.
  assert (Hw_in : forall j ep p k v, nth_error edge_paths j = Some ep -> Nat.even p = true ->
            nth_error (index_expected (c + id_offset edge_paths j) ep) p = Some (k, v) ->
            In (k, v) W).
  { intros j ep p k v Hj He Hp; apply writes_in.
    exists (src_tgt_ids ep), (index_expected (c + id_offset edge_paths j) ep), p; auto. }
  assert (Hw_out : forall k v, In (k, v) W -> exists j ep p, nth_error edge_paths j = Some ep
            /\ Nat.even p = true
            /\ nth_error (index_expected (c + id_offset edge_paths j) ep) p = Some (k, v)).
  { intros k v H; apply writes_in in H as [P [it [p [HPit [Hp He]]]]].
    destruct (Hitem P it HPit) as [j [ep [Hj ->]]]; exists j, ep, p; auto. }
  exists nodes, edges; split.
  { unfold build_newly_indexed_path_dict; fold c; rewrite EIP; exact Hloop. }
  assert (Hend : forall ep k b, In ep edge_paths -> endpoint_block ep k = Some b ->
            dict_get Z.eqb k nodes = Some b).
  { intros ep k b Hin Heb; rewrite Hnodes.
    apply (dict_get_fold_set Z.eqb Z.eqb_eq).
    + apply In_nth_error in Hin as [j Hj].
      destruct (index_expected_endpoint (c + id_offset edge_paths j) ep k b) as [p [He Hp]];
        [apply Hne; eapply nth_error_In; eauto | apply Hodd; eapply nth_error_In; eauto
        | exact Heb |].
      exists b; eapply Hw_in; eauto.
    + intros v' Hw; destruct (Hw_out _ _ Hw) as [j' [ep' [p [Hj' [He Hp]]]]].
      pose proof (nth_error_In _ _ Hj') as Hin'.
      destruct (item_entry _ _ _ _ _ _ Hj' Hp) as [[Hk Heb'] | [Hr [Hk _]]].
      * symmetry; apply (Hcons ep ep' k b v' Hin Hin' Heb (Heb' (Hne ep' Hin'))).
      * exfalso; pose proof (fresh_id_gt edge_paths j' p (proj1 Hr)).
        destruct (Hmax ep Hin); destruct (endpoint_block_key _ _ _ Heb); lia. }
  split; [exact Hend|]; split; [|split; [|split; [|split]]].
  - (* start and end ids *)
    intros ep n0 rest Hin Hn; split.
    + apply (Hend ep); [exact Hin | apply (endpoint_block_start _ _ _ Hn)].
    + intros Hr; apply (Hend ep); [exact Hin | apply (endpoint_block_end _ _ _ (Hne ep Hin) Hn Hr)].
  - (* the end id of a single-element path *)
    intros ep n0 Hin Hn Hother; rewrite Hnodes.
    rewrite (dict_get_fold_absent Z.eqb Z.eqb_eq); [reflexivity|].
    intros v' Hw; destruct (Hw_out _ _ Hw) as [j' [ep' [p [Hj' [He Hp]]]]].
    pose proof (nth_error_In _ _ Hj') as Hin'.
    destruct (item_entry _ _ _ _ _ _ Hj' Hp) as [[Hk Heb'] | [Hr [Hk _]]].
    + destruct (endpoint_block_key_len _ _ _ (Heb' (Hne ep' Hin'))) as [Hk' | [Hk' Hl]];
        destruct (Hother ep' Hin') as [Hs He']; [congruence|].
      rewrite (He' (eq_sym Hk')) in Hl; lia.
    + pose proof (fresh_id_gt edge_paths j' p (proj1 Hr)).
      destruct (Hmax ep Hin); lia.
  - (* counter ids *)
    intros j ep i b Hj Hi Hb; split; [apply fresh_id_gt; lia|].
    rewrite Hnodes; destruct (Nat.even i) eqn:Ei.
    + apply (dict_get_fold_set Z.eqb Z.eqb_eq).
      * exists b; apply (Hw_in j ep i); [exact Hj | exact Ei|].
        rewrite (index_expected_mid _ _ i b) by (unfold n_inter in Hi; first [lia | exact Hb]).
        reflexivity.
      * intros v' Hw; destruct (Hw_out _ _ Hw) as [j' [ep' [p [Hj' [He Hp]]]]].
        destruct (item_entry _ _ _ _ _ _ Hj' Hp) as [[Hk _] | [Hr [Hk Hv]]].
        -- exfalso; pose proof (fresh_id_gt edge_paths j i (proj1 Hi)); lia.
        -- destruct (fresh_id_inj _ _ _ _ _ _ _ Hj Hi Hj' Hr Hk) as [<- <-].
           rewrite Hj in Hj'; injection Hj' as <-; congruence.
    + rewrite (dict_get_fold_absent Z.eqb Z.eqb_eq); [reflexivity|].
      intros v' Hw; destruct (Hw_out _ _ Hw) as [j' [ep' [p [Hj' [He Hp]]]]].
      destruct (item_entry _ _ _ _ _ _ Hj' Hp) as [[Hk _] | [Hr [Hk Hv]]].
      * pose proof (fresh_id_gt edge_paths j i (proj1 Hi)); lia.
      * destruct (fresh_id_inj _ _ _ _ _ _ _ Hj Hi Hj' Hr Hk) as [_ <-]; congruence.
  - (* the counter never repeats an id *)
    intros j ep i k ep' p Hj Hi Hk Hp Heq; exact (fresh_id_inj _ _ _ _ _ _ _ Hj Hi Hk Hp Heq).
  - (* every key of the nodes mapping *)
    intros k v Hin; rewrite Hnodes in Hin.
    apply (dict_fold_in_inv Z.eqb Z.eqb_eq) in Hin as [Hw | []].
    destruct (Hw_out _ _ Hw) as [j [ep [p [Hj [He Hp]]]]].
    pose proof (nth_error_In _ _ Hj) as Hin.
    destruct (item_entry _ _ _ _ _ _ Hj Hp) as [[_ Heb] | [Hr [Hk Hv]]].
    + left; exists ep; split; [exact Hin | apply Heb, Hne, Hin].
    + right; exists j, ep, p; auto.
Qed.

Lemma build_newly_indexed_path_dict_ids_witness :
  exists nodes edges,
    build_newly_indexed_path_dict
      [{| src_tgt_ids := (0, 1);
          path_nodes := [((0, 0, 0), "xzz"%string); ((1, 0, 0), "zxo"%string);
                         ((3, 0, 0), "xzx"%string); ((4, 0, 0), "oxz"%string);
                         ((6, 0, 0), "zzx"%string)] |};
       {| src_tgt_ids := (1, 2);
          path_nodes := [((6, 0, 0), "zzx"%string); ((6, 1, 0), "xoz"%string);
                         ((6, 3, 0), "zxz"%string); ((6, 4, 0), "xoz"%string);
                         ((6, 6, 0), "xxz"%string)] |};
       {| src_tgt_ids := (3, 4);
          path_nodes := [((9, 9, 9), "zzz"%string)] |}] = Some (nodes, edges)
    /\ dict_get Z.eqb 1 nodes = Some ((6, 0, 0), "zzx"%string)
    /\ dict_get Z.eqb 2 nodes = Some ((6, 6, 0), "xxz"%string)
    /\ dict_get Z.eqb 6 nodes = Some ((3, 0, 0), "xzx"%string)
    /\ dict_get Z.eqb 5 nodes = None
    /\ dict_get Z.eqb 9 nodes = Some ((6, 3, 0), "zxz"%string)
    /\ dict_get Z.eqb 8 nodes = None
    /\ dict_get Z.eqb 3 nodes = Some ((9, 9, 9), "zzz"%string)
    /\ dict_get Z.eqb 4 nodes = None.
Proof.
  destruct (build_newly_indexed_path_dict_ids
    [{| src_tgt_ids := (0, 1);
        path_nodes := [((0, 0, 0), "xzz"%string); ((1, 0, 0), "zxo"%string);
                       ((3, 0, 0), "xzx"%string); ((4, 0, 0), "oxz"%string);
                       ((6, 0, 0), "zzx"%string)] |};
     {| src_tgt_ids := (1, 2);
        path_nodes := [((6, 0, 0), "zzx"%string); ((6, 1, 0), "xoz"%string);
                       ((6, 3, 0), "zxz"%string); ((6, 4, 0), "xoz"%string);
                       ((6, 6, 0), "xxz"%string)] |};
     {| src_tgt_ids := (3, 4);
        path_nodes := [((9, 9, 9), "zzz"%string)] |}])
    as [nodes [edges [Hb [_ [Hse [Hsingle [Hfresh _]]]]]]].
  - intros ep [<- | [<- | [<- | []]]]; reflexivity.
  - intros ep [<- | [<- | [<- | []]]]; cbn; lia.
  - cbn; repeat constructor; cbn; intros H;
      repeat (destruct H as [H | H]; [discriminate H|]); exact H.
  - intros ep ep' k b b' H1 H2;
      destruct H1 as [<- | [<- | [<- | []]]]; destruct H2 as [<- | [<- | [<- | []]]];
      unfold endpoint_block; cbn [path_nodes src_tgt_ids fst snd length Nat.ltb Nat.leb andb last];
      repeat match goal with |- context [?x =? k] => destruct (x =? k) eqn:? end;
      cbn [andb]; intros H1 H2; try discriminate H1; try discriminate H2;
      repeat match goal with H : (_ =? _) = true |- _ => apply Z.eqb_eq in H end;
      subst; congruence.
  - exists nodes, edges; split; [exact Hb|].
    split; [apply (Hse _ _ _ (or_introl eq_refl) eq_refl); discriminate|].
    split; [apply (Hse _ _ _ (or_intror (or_introl eq_refl)) eq_refl); discriminate|].
    split; [destruct (Hfresh 0%nat _ 2%nat ((3, 0, 0), "xzx"%string) eq_refl) as [_ H];
            [cbn; lia | reflexivity | exact H]|].
    split; [destruct (Hfresh 0%nat _ 1%nat ((1, 0, 0), "zxo"%string) eq_refl) as [_ H];
            [cbn; lia | reflexivity | exact H]|].
    split; [destruct (Hfresh 1%nat _ 2%nat ((6, 3, 0), "zxz"%string) eq_refl) as [_ H];
            [cbn; lia | reflexivity | exact H]|].
    split; [destruct (Hfresh 1%nat _ 1%nat ((6, 1, 0), "xoz"%string) eq_refl) as [_ H];
            [cbn; lia | reflexivity | exact H]|].
    split; [apply (proj1 (Hse _ _ _ (or_intror (or_intror (or_introl eq_refl))) eq_refl))|].
    apply (Hsingle _ _ (or_intror (or_intror (or_introl eq_refl))) eq_refl).
    intros ep' [<- | [<- | [<- | []]]]; cbn; split; try lia; discriminate.
Defined.

(** C4 (counterexample). A single edge path with ids (1, 2) and three
    elements: the intermediate element (a pipe) gets no id in the returned
    nodes mapping; it only appears as the kind of the edge (1, 2). *)
Lemma build_newly_indexed_path_dict_drops_pipes :
  build_newly_indexed_path_dict
    [{| src_tgt_ids := (1, 2);
        path_nodes := [((0, 0, 0), "xzz"%string); ((1, 0, 0), "zxo"%string);
                       ((3, 0, 0), "xzx"%string)] |}]
  = Some ([(1, ((0, 0, 0), "xzz"%string)); (2, ((3, 0, 0), "xzx"%string))],
          [((1, 2), "zxo"%string)])
  /\ forall k, dict_get Z.eqb k [(1, ((0, 0, 0), "xzz"%string)); (2, ((3, 0, 0), "xzx"%string))]
               <> Some ((1, 0, 0), "zxo"%string).
Proof.
  split; [vm_compute; reflexivity|].
  intros k; cbn [dict_get]; destruct (k =? 1); [|destruct (k =? 2)]; discriminate.
Qed.

(** C10. If an earlier edge path [j] and a later one [j'] have the same
    (start id, end id) pair and [j'] is the last with that pair, then the
    counter ids of the intermediate elements of [j] are keys neither of the
    returned nodes mapping nor of any returned edge, although the counter
    consumed them (every counter id of [j'] is larger), while the blocks
    among the intermediate elements of [j'] are in the nodes mapping under
    their counter ids. *)
Theorem build_duplicate_pair_last_wins (edge_paths : list edge_path) nodes edges
    (j j' : nat) (ep ep' : edge_path) :
  build_newly_indexed_path_dict edge_paths = Some (nodes, edges) ->
  nth_error edge_paths j = Some ep -> nth_error edge_paths j' = Some ep' -> (j < j')%nat ->
  src_tgt_ids ep' = src_tgt_ids ep ->
  (forall k ep'', (j' < k)%nat -> nth_error edge_paths k = Some ep'' ->
     src_tgt_ids ep'' <> src_tgt_ids ep) ->
  (forall i, (1 <= i <= n_inter ep)%nat ->
     dict_get Z.eqb (fresh_id edge_paths j i) nodes = None
     /\ (forall k1 k2, In (k1, k2) (map fst edges) ->
           k1 <> fresh_id edge_paths j i /\ k2 <> fresh_id edge_paths j i)
     /\ (forall i', (1 <= i' <= n_inter ep')%nat ->
           fresh_id edge_paths j i < fresh_id edge_paths j' i'))
  /\ (forall i b, (1 <= i <= n_inter ep')%nat -> Nat.even i = true ->
        nth_error (path_nodes ep') i = Some b ->
        dict_get Z.eqb (fresh_id edge_paths j' i) nodes = Some b).
Proof.
  intros Hb Hj Hj' Hlt Hpair Hlast.
  destruct (build_items _ _ _ Hb) as [IP [Hiff Hloop]].
  destruct (latice_loop_spec _ _ _ _ _ Hloop) as [Hnodes Hedges].
  set (W := concat (map (fun '(_, it) => even_entries 0 it) IP)) in Hnodes.
  assert (Hstored : forall P it, In (P, it) IP -> forall p k v, nth_error it p = Some (k, v) ->
            exists j'' ep'', nth_error edge_paths j'' = Some ep''
              /\ (forall k' ep''', (j'' < k')%nat -> nth_error edge_paths k' = Some ep''' ->
                    src_tgt_ids ep''' <> src_tgt_ids ep'')
              /\ nth_error (index_expected (max_endpoint_id edge_paths + 1
                                             + id_offset edge_paths j'') ep'') p = Some (k, v)).
  { intros P it HPit p k v Hp; apply Hiff in HPit as [j'' [ep'' [Hj'' [-> [-> Hl]]]]].
    exists j'', ep''; auto. }
  (* a stored entry never carries a counter id of path [j] *)
  assert (Hnot_j : forall j'' ep'' p k v, nth_error edge_paths j'' = Some ep'' ->
            (forall k' ep''', (j'' < k')%nat -> nth_error edge_paths k' = Some ep''' ->
               src_tgt_ids ep''' <> src_tgt_ids ep'') ->
            nth_error (index_expected (max_endpoint_id edge_paths + 1
                                        + id_offset edge_paths j'') ep'') p = Some (k, v) ->
            forall i, (1 <= i <= n_inter ep)%nat -> k <> fresh_id edge_paths j i).
  { intros j'' ep'' p k v Hj'' Hl Hp i Hi ->.
    destruct (item_entry _ _ _ _ _ _ Hj'' Hp) as [[Hk _] | [Hr [Hk _]]].
    - pose proof (fresh_id_gt edge_paths j i (proj1 Hi)); lia.
    - destruct (fresh_id_inj _ _ _ _ _ _ _ Hj Hi Hj'' Hr Hk) as [<- _].
      rewrite Hj in Hj''; injection Hj'' as <-.
      apply (Hl j' ep' Hlt Hj' Hpair). }
  split.
  - intros i Hi; split; [|split].
    + rewrite Hnodes, (dict_get_fold_absent Z.eqb Z.eqb_eq); [reflexivity|].
      intros v Hw; apply writes_in in Hw as [P [it [p [HPit [Hp _]]]]].
      destruct (Hstored P it HPit p _ v Hp) as [j'' [ep'' [Hj'' [Hl Hp']]]].
      exact (Hnot_j _ _ _ _ _ Hj'' Hl Hp' i Hi eq_refl).
    + intros k1 k2 Hin; destruct (Hedges k1 k2 Hin) as [[] | [P [it [HPit [H1 H2]]]]].
      apply in_map_iff in H1 as [[k1' v1] [Hk1 H1]]; cbn [fst] in Hk1; subst k1'.
      apply in_map_iff in H2 as [[k2' v2] [Hk2 H2]]; cbn [fst] in Hk2; subst k2'.
      apply In_nth_error in H1 as [p1 Hp1]; apply In_nth_error in H2 as [p2 Hp2].
      destruct (Hstored P it HPit p1 _ _ Hp1) as [j1 [ep1 [Hj1 [Hl1 Hq1]]]].
      destruct (Hstored P it HPit p2 _ _ Hp2) as [j2 [ep2 [Hj2 [Hl2 Hq2]]]].
      split; [exact (Hnot_j _ _ _ _ _ Hj1 Hl1 Hq1 i Hi) | exact (Hnot_j _ _ _ _ _ Hj2 Hl2 Hq2 i Hi)].
    + intros i' Hi'; pose proof (id_offset_mono edge_paths j j' ep Hj Hlt).
      unfold fresh_id, id_offset; unfold n_inter in *; lia.
  - intros i b Hi Ei Hbi; rewrite Hnodes; apply (dict_get_fold_set Z.eqb Z.eqb_eq).
    + exists b; apply writes_in.
      exists (src_tgt_ids ep'),
        (index_expected (max_endpoint_id edge_paths + 1 + id_offset edge_paths j') ep'), i.
      split; [|split; [|exact Ei]].
      * apply Hiff; exists j', ep'; split; [exact Hj'|]; split; [reflexivity|]; split; [reflexivity|].
        rewrite Hpair; exact Hlast.
      * rewrite (index_expected_mid _ _ i b) by (unfold n_inter in Hi; first [lia | exact Hbi]).
        reflexivity.
    + intros v Hw; apply writes_in in Hw as [P [it [p [HPit [Hp _]]]]].
      destruct (Hstored P it HPit p _ v Hp) as [j'' [ep'' [Hj'' [_ Hp']]]].
      destruct (item_entry _ _ _ _ _ _ Hj'' Hp') as [[Hk _] | [Hr [Hk Hv]]].
      * pose proof (fresh_id_gt edge_paths j' i (proj1 Hi)); lia.
      * destruct (fresh_id_inj _ _ _ _ _ _ _ Hj' Hi Hj'' Hr Hk) as [<- <-].
        rewrite Hj' in Hj''; injection Hj'' as <-; congruence.
Qed.

Lemma build_duplicate_pair_last_wins_witness :
  dict_get Z.eqb 2
    [(0, ((0, 0, 0), "xzz"%string)); (4, ((3, 0, 0), "xzx"%string));
     (1, ((6, 0, 0), "zzx"%string))] = None
  /\ dict_get Z.eqb 4
    [(0, ((0, 0, 0), "xzz"%string)); (4, ((3, 0, 0), "xzx"%string));
     (1, ((6, 0, 0), "zzx"%string))] = Some ((3, 0, 0), "xzx"%string).
Proof.
  pose (p1 := {| src_tgt_ids := (0, 1);
                 path_nodes := [((0, 0, 0), "xzz"%string); ((1, 0, 0), "zxo"%string);
                                ((3, 0, 0), "xzx"%string)] |}).
  pose (p2 := {| src_tgt_ids := (0, 1);
                 path_nodes := [((0, 0, 0), "xzz"%string); ((1, 0, 0), "zxo"%string);
                                ((3, 0, 0), "xzx"%string); ((4, 0, 0), "oxz"%string);
                                ((6, 0, 0), "zzx"%string)] |}).
  destruct (build_duplicate_pair_last_wins [p1; p2]
    [(0, ((0, 0, 0), "xzz"%string)); (4, ((3, 0, 0), "xzx"%string));
     (1, ((6, 0, 0), "zzx"%string))]
    [((0, 4), "zxo"%string); ((4, 1), "oxz"%string)]
    0 1 p1 p2)
    as [Hold Hnew].
  - unfold p1, p2; vm_compute; reflexivity.
  - reflexivity.
  - reflexivity.
  - lia.
  - reflexivity.
  - intros [|[|k]] ep'' Hk; [lia | lia | destruct k; discriminate].
  - split.
    + exact (proj1 (Hold 1%nat ltac:(cbn; lia))).
    + exact (Hnew 2%nat ((3, 0, 0), "xzx"%string) ltac:(cbn; lia) eq_refl eq_refl).
Defined.

(** ** check_is_exit and check_for_exits *)

Lemma check_is_exit_shift s k d : check_is_exit s k (shift s d) = check_is_exit (0, 0, 0) k d.
Proof.
  destruct s as [[sx sy] sz], d as [[dx dy] dz]; unfold check_is_exit, shift.
  rewrite !Z.add_simpl_l, !Z.sub_0_r; reflexivity.
Qed.

(** Whether [check_is_exit] raises depends on the kind only. *)
Lemma check_is_exit_none_any s k t t' :
  check_is_exit s k t = None -> check_is_exit s k t' = None.
Proof.
  unfold check_is_exit; cbv zeta.
  set (sk := match k with Some k => substring 0 3 (py_lower k) | None => EmptyString end).
  destruct (String.get 0 sk), (String.get 1 sk), (String.get 2 sk); try reflexivity.
  destruct (if existsb _ _ then _ else _); [|reflexivity].
  destruct s as [[? ?] ?], t as [[? ?] ?]; discriminate.
Qed.

(** X: a kind that is [None] or shorter than three characters raises. *)
Theorem check_is_exit_short_kind (s t : coord) (k : option string) :
  match k with None => True | Some k' => (String.length k' < 3)%nat end ->
  check_is_exit s k t = None.
Proof.
  destruct k as [k|]; [|reflexivity].
  destruct k as [|c0 [|c1 [|c2 k]]]; cbn [String.length]; intros H; try reflexivity; lia.
Qed.

Lemma check_is_exit_short_kind_witness :
  (String.length "zx" < 3)%nat /\ check_is_exit (0, 0, 0) (Some "zx"%string) (1, 0, 0) = None.
Proof. split; [cbn; lia | apply (check_is_exit_short_kind (0, 0, 0) (1, 0, 0) (Some "zx"%string)); cbn; lia]. Defined.

Lemma pipe_exit_dir (c0 c1 c2 : ascii) (rest : string) (p : nat) (s d : coord) :
  o_position (py_lower_char c0) (py_lower_char c1) (py_lower_char c2) p ->
  In d directional_array ->
  check_is_exit s (Some (String c0 (String c1 (String c2 rest)))) (shift s d) = Some (on_axis d p).
Proof.
  intros Ho Hd; rewrite check_is_exit_shift; unfold check_is_exit.
  cbn [py_lower substring String.get].
  revert Ho; generalize (py_lower_char c0) (py_lower_char c1) (py_lower_char c2).
  intros l0 l1 l2 Ho.
  destruct p as [|[|[|p]]]; cbn [o_position] in Ho; [| | |contradiction];
    destruct Ho as [H0 [H1 H2]]; subst; ascii_neq_facts;
    destruct Hd as [<-|[<-|[<-|[<-|[<-|[<-|[]]]]]]];
    repeat (progress (cbn -[Ascii.eqb])
            || match goal with E : Ascii.eqb _ _ = _ |- _ => rewrite E end
            || rewrite Ascii.eqb_refl);
    reflexivity.
Qed.

(** For a pipe kind (one ['o'] among the first three characters, after
    lowering), the exits among the six unit directions are the two along
    the axis of the ['o']; case and anything after the third character
    (such as the Hadamard ["h"]) are ignored. *)
Theorem check_is_exit_pipe (c0 c1 c2 : ascii) (rest : string) (p : nat) (s d : coord) :
  o_position (py_lower_char c0) (py_lower_char c1) (py_lower_char c2) p ->
  In d directional_array ->
  check_is_exit s (Some (String c0 (String c1 (String c2 rest)))) (shift s d) = Some (on_axis d p).
Proof. exact (pipe_exit_dir c0 c1 c2 rest p s d). Qed.

Lemma marker_list_in l0 l1 l2 x :
  In x (filter (fun i => Nat.eqb (count_char i [l0; l1; l2]) 2) (nodup ascii_dec [l0; l1; l2]))
  <-> (x = l0 \/ x = l1 \/ x = l2) /\ count_char x [l0; l1; l2] = 2%nat.
Proof.
  rewrite filter_In, nodup_In, Nat.eqb_eq; cbn [In].
  split; intros [H1 H2]; split; auto; intuition congruence.
Qed.

Lemma marker_list_nodup l0 l1 l2 :
  NoDup (filter (fun i => Nat.eqb (count_char i [l0; l1; l2]) 2) (nodup ascii_dec [l0; l1; l2])).
Proof. apply NoDup_filter, NoDup_nodup. Qed.

Lemma singleton_of_in {A : Type} (L : list A) (m : A) :
  NoDup L -> (forall x, In x L <-> x = m) -> L = [m].
Proof.
  intros Hnd Hin; destruct L as [|a [|b L']].
  - exfalso; apply (proj2 (Hin m) eq_refl).
  - f_equal; apply Hin; left; reflexivity.
  - exfalso; inversion Hnd as [|? ? Hna _]; apply Hna; left.
    transitivity m; [apply Hin; right; left; reflexivity | symmetry; apply Hin; left; reflexivity].
Qed.

(** The letter that occurs twice is the exit marker of a block. *)
Lemma block_marker l0 l1 l2 q :
  odd_one_out l0 l1 l2 q ->
  nth_error (filter (fun i => Nat.eqb (count_char i [l0; l1; l2]) 2)
                    (nodup ascii_dec [l0; l1; l2])) 0
  = Some (match q with O => l1 | _ => l0 end).
Proof.
  intros Hq; rewrite (singleton_of_in _ (match q with O => l1 | _ => l0 end));
    [reflexivity | apply marker_list_nodup|].
  intros x; rewrite marker_list_in; unfold count_char.
  destruct q as [|[|[|q]]]; cbn [odd_one_out] in Hq; [| | |contradiction];
    destruct Hq as [-> Hne]; split.
  all: first [ intros [[-> | [-> | ->]] Hc]
             | intros ->; split; [tauto|] ].
  all: cbn -[Ascii.eqb] in *; rewrite ?Ascii.eqb_refl in *;
    try rewrite (proj2 (Ascii.eqb_neq _ _) Hne) in *;
    try rewrite (proj2 (Ascii.eqb_neq _ _) (not_eq_sym Hne)) in *;
    cbn in *; try reflexivity; try discriminate.
Qed.

(** No letter occurs exactly twice: the list of markers is empty. *)
Lemma no_marker l0 l1 l2 :
  (l0 = l1 /\ l1 = l2) \/ (l0 <> l1 /\ l1 <> l2 /\ l0 <> l2) ->
  filter (fun i => Nat.eqb (count_char i [l0; l1; l2]) 2) (nodup ascii_dec [l0; l1; l2]) = [].
Proof.
  intros H; destruct (filter _ _) as [|x L] eqn:E; [reflexivity|exfalso].
  assert (Hx : In x (x :: L)) by (left; reflexivity); rewrite <- E, marker_list_in in Hx.
  destruct Hx as [Hx Hc]; unfold count_char in Hc.
  destruct H as [[-> ->] | [H01 [H12 H02]]].
  - destruct Hx as [-> | [-> | ->]]; cbn -[Ascii.eqb] in Hc;
      rewrite Ascii.eqb_refl in Hc; discriminate.
  - ascii_neq_facts.
    destruct Hx as [-> | [-> | ->]]; cbn -[Ascii.eqb] in Hc;
      rewrite ?Ascii.eqb_refl in Hc;
      repeat match goal with E : Ascii.eqb _ _ = _ |- _ => rewrite E in Hc; clear E end;
      discriminate.
Qed.

Lemma block_exit_dir (c0 c1 c2 : ascii) (rest : string) (q : nat) (s d : coord) :
  (py_lower_char c0 <> "o" /\ py_lower_char c1 <> "o" /\ py_lower_char c2 <> "o")%char ->
  odd_one_out (py_lower_char c0) (py_lower_char c1) (py_lower_char c2) q ->
  In d directional_array ->
  check_is_exit s (Some (String c0 (String c1 (String c2 rest)))) (shift s d)
  = Some (negb (on_axis d q)).
Proof.
  intros Hno Hq Hd; rewrite check_is_exit_shift; unfold check_is_exit.
  cbn [py_lower substring String.get].
  revert Hno Hq; generalize (py_lower_char c0) (py_lower_char c1) (py_lower_char c2).
  intros l0 l1 l2 [N0 [N1 N2]] Hq.
  assert (Ho : existsb (Ascii.eqb "o") [l0; l1; l2] = false).
  { cbn -[Ascii.eqb]; ascii_neq_facts;
    repeat match goal with E : Ascii.eqb _ _ = _ |- _ => rewrite E; clear E end;
    reflexivity. }
  rewrite Ho, (block_marker _ _ _ _ Hq).
  destruct q as [|[|[|q]]]; cbn [odd_one_out] in Hq; [| | |contradiction];
    destruct Hq as [-> Hne]; ascii_neq_facts;
    destruct Hd as [<-|[<-|[<-|[<-|[<-|[<-|[]]]]]]];
    repeat (progress (cbn -[Ascii.eqb])
            || match goal with E : Ascii.eqb _ _ = _ |- _ => rewrite E end
            || rewrite Ascii.eqb_refl);
    reflexivity.
Qed.

(** A block kind (no ['o'] among its first three letters, after lowering,
    one letter occurring twice and one once) is left on the two axes that
    carry the repeated letter: the exit is the face across the axis of the
    odd letter out, in either direction, and no other. *)
Theorem check_is_exit_block (c0 c1 c2 : ascii) (rest : string) (q : nat) (s d : coord) :
  (py_lower_char c0 <> "o" /\ py_lower_char c1 <> "o" /\ py_lower_char c2 <> "o")%char ->
  odd_one_out (py_lower_char c0) (py_lower_char c1) (py_lower_char c2) q ->
  In d directional_array ->
  check_is_exit s (Some (String c0 (String c1 (String c2 rest)))) (shift s d)
  = Some (negb (on_axis d q)).
Proof. exact (block_exit_dir c0 c1 c2 rest q s d). Qed.

(** A kind with no ['o'] among its first three letters whose letters are
    all equal or pairwise distinct has no exit marker: the lookup of the
    marker's first element fails, whatever the target. *)
Theorem check_is_exit_no_marker (c0 c1 c2 : ascii) (rest : string) (s t : coord) :
  let l0 := py_lower_char c0 in let l1 := py_lower_char c1 in let l2 := py_lower_char c2 in
  (l0 <> "o" /\ l1 <> "o" /\ l2 <> "o")%char ->
  (l0 = l1 /\ l1 = l2) \/ (l0 <> l1 /\ l1 <> l2 /\ l0 <> l2) ->
  check_is_exit s (Some (String c0 (String c1 (String c2 rest)))) t = None.
Proof.
  intros l0 l1 l2 Hno Hm; unfold check_is_exit.
  cbn [py_lower substring String.get].
  fold l0 l1 l2.
  assert (Ho : existsb (Ascii.eqb "o") [l0; l1; l2] = false).
  { destruct Hno as [N0 [N1 N2]]; clearbody l0 l1 l2.
    cbn -[Ascii.eqb]; ascii_neq_facts;
    repeat match goal with E : Ascii.eqb _ _ = _ |- _ => rewrite E; clear E end;
    reflexivity. }
  rewrite Ho, (no_marker _ _ _ Hm); reflexivity.
Qed.

Lemma check_is_exit_pipe_witness :
  o_position (py_lower_char "Z") (py_lower_char "X") (py_lower_char "o") 2
  /\ check_is_exit (1, 2, 3) (Some "ZXoH"%string) (shift (1, 2, 3) (0, 0, -1)) = Some true.
Proof.
  assert (Ho : o_position (py_lower_char "Z") (py_lower_char "X") (py_lower_char "o") 2)
    by (cbn; repeat split; first [reflexivity | discriminate]).
  split; [exact Ho|].
  apply (check_is_exit_pipe "Z" "X" "o" "H" 2 (1, 2, 3) (0, 0, -1) Ho).
  cbn; tauto.
Defined.

Lemma check_is_exit_block_witness :
  (py_lower_char "X" <> "o" /\ py_lower_char "Z" <> "o" /\ py_lower_char "Z" <> "o")%char
  /\ odd_one_out (py_lower_char "X") (py_lower_char "Z") (py_lower_char "Z") 0
  /\ check_is_exit (1, 2, 3) (Some "XZZ"%string) (shift (1, 2, 3) (0, -1, 0)) = Some true.
Proof.
  assert (Hn : (py_lower_char "X" <> "o" /\ py_lower_char "Z" <> "o" /\ py_lower_char "Z" <> "o")%char)
    by (cbn; repeat split; discriminate).
  assert (Hq : odd_one_out (py_lower_char "X") (py_lower_char "Z") (py_lower_char "Z") 0)
    by (cbn; split; [reflexivity | discriminate]).
  split; [exact Hn|]; split; [exact Hq|].
  apply (check_is_exit_block "X" "Z" "Z" "" 0 (1, 2, 3) (0, -1, 0) Hn Hq).
  cbn; tauto.
Defined.

Lemma check_is_exit_no_marker_witness :
  (py_lower_char "z" <> "o" /\ py_lower_char "Z" <> "o" /\ py_lower_char "z" <> "o")%char
  /\ check_is_exit (0, 0, 0) (Some "zZz"%string) (1, 0, 0) = None.
Proof.
  assert (Hn : (py_lower_char "z" <> "o" /\ py_lower_char "Z" <> "o" /\ py_lower_char "z" <> "o")%char)
    by (cbn; repeat split; discriminate).
  split; [exact Hn|].
  apply (check_is_exit_no_marker "z" "Z" "z" "" (0, 0, 0) (1, 0, 0) Hn).
  left; split; reflexivity.
Defined.

Lemma fold_left_cons_eq {A B : Type} (f : A -> B -> A) x l a :
  fold_left f (x :: l) a = fold_left f l (f a x).
Proof. reflexivity. Qed.

Lemma cfe_fold_none n k occ ab L ds :
  fold_left (check_for_exits_step n k occ ab L) ds None = None.
Proof. induction ds as [|d ds IH]; [reflexivity | exact IH]. Qed.

Lemma cfe_step_none n k occ ab L acc d :
  check_is_exit n k (shift n d) = None ->
  check_for_exits_step n k occ ab L (Some acc) d = None.
Proof. intros E; destruct acc; unfold check_for_exits_step; rewrite E; reflexivity. Qed.

Lemma cfe_step n k occ ab L cnt nb d :
  check_is_exit n k (shift n d) <> None ->
  check_for_exits_step n k occ ab L (Some (cnt, nb)) d
  = if exit_open n k occ ab L d
    then Some (cnt + 1, nb ++ [exit_beam n (shift n d) L]) else Some (cnt, nb).
Proof.
  intros Hd; unfold check_for_exits_step, exit_open.
  destruct (check_is_exit n k (shift n d)) as [[|]|]; [|reflexivity|contradiction].
  pose proof (check_unobstructed_beam n (shift n d) occ ab L) as Hb.
  destruct (check_unobstructed n (shift n d) occ ab L) as [u b]; cbn in *; subst b.
  destruct u; reflexivity.
Qed.

Lemma cfe_fold n k occ ab L ds cnt nb :
  (forall d, In d ds -> check_is_exit n k (shift n d) <> None) ->
  fold_left (check_for_exits_step n k occ ab L) ds (Some (cnt, nb))
  = Some (cnt + Z.of_nat (length (filter (exit_open n k occ ab L) ds)),
          nb ++ map (fun d => exit_beam n (shift n d) L) (filter (exit_open n k occ ab L) ds)).
Proof.
  revert cnt nb; induction ds as [|d ds IH]; intros cnt nb Hall.
  - cbn; rewrite Z.add_0_r, app_nil_r; reflexivity.
  - rewrite fold_left_cons_eq, cfe_step by (apply Hall; left; reflexivity).
    cbn [filter]; destruct (exit_open n k occ ab L d).
    + rewrite IH by (intros d' Hd'; apply Hall; right; exact Hd').
      cbn [length map]; rewrite <- app_assoc; cbn [app].
      f_equal; f_equal; lia.
    + apply IH; intros d' Hd'; apply Hall; right; exact Hd'.
Qed.

Lemma cfe_none_of n k occ ab L t :
  check_is_exit n k t = None -> check_for_exits n k occ ab L = None.
Proof.
  intros E; unfold check_for_exits, directional_array.
  rewrite fold_left_cons_eq, cfe_step_none by (apply (check_is_exit_none_any _ _ t); exact E).
  apply cfe_fold_none.
Qed.

Lemma cfe_eq n k occ ab L :
  (forall t, check_is_exit n k t <> None) ->
  check_for_exits n k occ ab L
  = Some (Z.of_nat (length (filter (exit_open n k occ ab L) directional_array)),
          map (fun d => exit_beam n (shift n d) L) (filter (exit_open n k occ ab L) directional_array)).
Proof.
  intros H; unfold check_for_exits; rewrite cfe_fold by (intros d _; apply H).
  reflexivity.
Qed.

Lemma cfe_not_none n k occ ab L r t :
  check_for_exits n k occ ab L = Some r -> check_is_exit n k t <> None.
Proof. intros Hr E; rewrite (cfe_none_of n k occ ab L t E) in Hr; discriminate. Qed.

Lemma check_unobstructed_all_beams s t occ ab ab' L :
  check_unobstructed s t occ ab L = check_unobstructed s t occ ab' L.
Proof.
  destruct occ as [|o occ']; [reflexivity|].
  rewrite !check_unobstructed_nonempty by discriminate; reflexivity.
Qed.

Lemma exit_open_mono n k occ occ' ab L d :
  incl occ occ' -> exit_open n k occ' ab L d = true -> exit_open n k occ ab L d = true.
Proof.
  unfold exit_open; intros Hinc.
  destruct (check_is_exit n k (shift n d)) as [[|]|]; try discriminate.
  destruct occ as [|o occ0]; [reflexivity|].
  assert (Hne : occ' <> []) by (intros ->; apply (Hinc o); left; reflexivity).
  rewrite !check_unobstructed_nonempty by (assumption || discriminate); cbn [fst].
  rewrite !negb_true_iff; intros H'.
  destruct (existsb (fun c => coord_in c (o :: occ0)) _) eqn:E; [|reflexivity].
  rewrite <- H'; symmetry; apply existsb_exists in E as [c [Hc Hco]]; apply existsb_exists.
  exists c; split; [exact Hc|]; apply coord_in_iff; apply coord_in_iff in Hco; apply Hinc, Hco.
Qed.

Lemma filter_length_mono {A : Type} (f g : A -> bool) (l : list A) :
  (forall x, g x = true -> f x = true) -> (length (filter g l) <= length (filter f l))%nat.
Proof.
  intros H; induction l as [|x l IH]; [reflexivity|]; cbn [filter].
  destruct (g x) eqn:Eg; [rewrite (H x Eg); cbn; lia|].
  destruct (f x); cbn; lia.
Qed.

(** [check_for_exits] raises exactly when [check_is_exit] raises for the
    node's kind, and then it does so for every target: the kind is [None],
    shorter than three characters, or carries no exit marker. *)
Theorem check_for_exits_none_iff n k occ ab L :
  check_for_exits n k occ ab L = None <-> forall t, check_is_exit n k t = None.
Proof.
  split.
  - intros H t; destruct (check_is_exit n k t) eqn:E; [exfalso|reflexivity].
    rewrite cfe_eq in H; [discriminate|].
    intros t' E'; rewrite (check_is_exit_none_any n k t' t E') in E; discriminate.
  - intros H; apply (cfe_none_of n k occ ab L (0, 0, 0)), H.
Qed.

(** The count returned by [check_for_exits] is the number of beams; there
    are at most six; each beam is the [exit_beam] toward a unit direction
    that [check_is_exit] accepts, and, when [occupied] is not empty, no cell
    of a returned beam is occupied. *)
Theorem check_for_exits_result n k occ ab L cnt nb :
  check_for_exits n k occ ab L = Some (cnt, nb) ->
  cnt = Z.of_nat (length nb) /\ (length nb <= 6)%nat /\
  forall b, In b nb ->
    exists d, In d directional_array /\ check_is_exit n k (shift n d) = Some true
              /\ b = exit_beam n (shift n d) L
              /\ (occ <> [] -> forall c, In c b -> ~ In c occ).
Proof.
  intros H.
  assert (Hnn : forall t, check_is_exit n k t <> None)
    by (intros t; exact (cfe_not_none _ _ _ _ _ _ t H)).
  rewrite cfe_eq in H by exact Hnn.
  remember (filter (exit_open n k occ ab L) directional_array) as F eqn:HF.
  injection H as <- <-.
  split; [rewrite length_map; reflexivity|].
  split; [rewrite length_map, HF; exact (filter_length_le _ directional_array)|].
  intros b Hb; apply in_map_iff in Hb as [d [<- Hd]]; rewrite HF in Hd.
  apply filter_In in Hd as [Hd Ho].
  exists d; split; [exact Hd|].
  unfold exit_open in Ho; destruct (check_is_exit n k (shift n d)) as [[|]|]; try discriminate.
  split; [reflexivity|]; split; [reflexivity|].
  intros Hocc c Hc Hco; rewrite check_unobstructed_nonempty in Ho by exact Hocc.
  cbn [fst] in Ho; apply negb_true_iff in Ho.
  assert (Ht : existsb (fun c => coord_in c occ) (exit_beam n (shift n d) L) = true)
    by (apply existsb_exists; exists c; split; [exact Hc | apply coord_in_iff, Hco]).
  congruence.
Qed.

Lemma check_for_exits_result_witness :
  check_for_exits (0, 0, 0) (Some "zxo"%string) [(0, 0, 2)] [] 3
    = Some (1, [[(0, 0, -1); (0, 0, -2)]])
  /\ 1 = Z.of_nat (length [[(0, 0, -1); (0, 0, -2)]])
  /\ Nat.le (length [[(0, 0, -1); (0, 0, -2)]]) 6
  /\ forall b, In b [[(0, 0, -1); (0, 0, -2)]] ->
       exists d, In d directional_array
                 /\ check_is_exit (0, 0, 0) (Some "zxo"%string) (shift (0, 0, 0) d) = Some true
                 /\ b = exit_beam (0, 0, 0) (shift (0, 0, 0) d) 3
                 /\ ([(0, 0, 2)] <> [] -> forall c, In c b -> ~ In c [(0, 0, 2)]).
Proof.
  assert (H : check_for_exits (0, 0, 0) (Some "zxo"%string) [(0, 0, 2)] [] 3
              = Some (1, [[(0, 0, -1); (0, 0, -2)]])) by (vm_compute; reflexivity).
  split; [exact H|].
  exact (check_for_exits_result (0, 0, 0) (Some "zxo"%string) [(0, 0, 2)] [] 3 1
           [[(0, 0, -1); (0, 0, -2)]] H).
Defined.

(** [all_beams] has no influence on [check_for_exits]. *)
Theorem check_for_exits_all_beams n k occ ab ab' L :
  check_for_exits n k occ ab L = check_for_exits n k occ ab' L.
Proof.
  unfold check_for_exits; generalize (Some (0, @nil beam)) as acc.
  induction directional_array as [|d ds IH]; intros acc; [reflexivity|].
  rewrite !fold_left_cons_eq; unfold check_for_exits_step at 2 4.
  rewrite (check_unobstructed_all_beams _ _ _ ab ab'); apply IH.
Qed.

(** With nothing occupied, a pipe has two unobstructed exits, whose beams
    run along the axis of its ['o'], the positive direction first. *)
Theorem check_for_exits_pipe_free (c0 c1 c2 : ascii) (rest : string) (p : nat) n ab L :
  o_position (py_lower_char c0) (py_lower_char c1) (py_lower_char c2) p ->
  check_for_exits n (Some (String c0 (String c1 (String c2 rest)))) [] ab L
  = Some (2, map (fun d => exit_beam n (shift n d) L)
                 (filter (fun d => on_axis d p) directional_array)).
Proof.
  intros Ho.
  assert (Hnn : forall t, check_is_exit n (Some (String c0 (String c1 (String c2 rest)))) t <> None).
  { intros t E; pose proof (pipe_exit_dir c0 c1 c2 rest p n (1, 0, 0) Ho (or_introl eq_refl)) as H1.
    rewrite (check_is_exit_none_any _ _ _ _ E) in H1; discriminate. }
  rewrite cfe_eq by exact Hnn.
  rewrite (filter_ext_in _ (fun d => on_axis d p)).
  - f_equal; f_equal.
    destruct p as [|[|[|p]]]; [reflexivity | reflexivity | reflexivity | contradiction].
  - intros d Hd; unfold exit_open; rewrite (pipe_exit_dir c0 c1 c2 rest p n d Ho Hd).
    destruct (on_axis d p); reflexivity.
Qed.

Lemma check_for_exits_pipe_free_witness :
  o_position (py_lower_char "Z") (py_lower_char "X") (py_lower_char "o") 2
  /\ check_for_exits (1, 2, 3) (Some "ZXoH"%string) [] [] 3
     = Some (2, map (fun d => exit_beam (1, 2, 3) (shift (1, 2, 3) d) 3)
                    (filter (fun d => on_axis d 2) directional_array)).
Proof.
  assert (Ho : o_position (py_lower_char "Z") (py_lower_char "X") (py_lower_char "o") 2)
    by (cbn; repeat split; first [reflexivity | discriminate]).
  split; [exact Ho|].
  exact (check_for_exits_pipe_free "Z" "X" "o" "H" 2 (1, 2, 3) [] 3 Ho).
Defined.

(** With nothing occupied, a block has four unobstructed exits, whose beams
    run along the two axes of its repeated letter, in the order of
    [directional_array]. *)
Theorem check_for_exits_block_free (c0 c1 c2 : ascii) (rest : string) (q : nat) n ab L :
  (py_lower_char c0 <> "o" /\ py_lower_char c1 <> "o" /\ py_lower_char c2 <> "o")%char ->
  odd_one_out (py_lower_char c0) (py_lower_char c1) (py_lower_char c2) q ->
  check_for_exits n (Some (String c0 (String c1 (String c2 rest)))) [] ab L
  = Some (4, map (fun d => exit_beam n (shift n d) L)
                 (filter (fun d => negb (on_axis d q)) directional_array)).
Proof.
  intros Hno Hq.
  assert (Hnn : forall t, check_is_exit n (Some (String c0 (String c1 (String c2 rest)))) t <> None).
  { intros t E; pose proof (block_exit_dir c0 c1 c2 rest q n (1, 0, 0) Hno Hq (or_introl eq_refl)) as H1.
    rewrite (check_is_exit_none_any _ _ _ _ E) in H1; discriminate. }
  rewrite cfe_eq by exact Hnn.
  rewrite (filter_ext_in _ (fun d => negb (on_axis d q))).
  - f_equal; f_equal.
    destruct q as [|[|[|q]]]; [reflexivity | reflexivity | reflexivity | contradiction].
  - intros d Hd; unfold exit_open; rewrite (block_exit_dir c0 c1 c2 rest q n d Hno Hq Hd).
    destruct (negb (on_axis d q)); reflexivity.
Qed.

Lemma check_for_exits_block_free_witness :
  (py_lower_char "X" <> "o" /\ py_lower_char "Z" <> "o" /\ py_lower_char "Z" <> "o")%char
  /\ odd_one_out (py_lower_char "X") (py_lower_char "Z") (py_lower_char "Z") 0
  /\ check_for_exits (0, 0, 0) (Some "XZZ"%string) [] [] 2
     = Some (4, map (fun d => exit_beam (0, 0, 0) (shift (0, 0, 0) d) 2)
                    (filter (fun d => negb (on_axis d 0)) directional_array)).
Proof.
  assert (Hn : (py_lower_char "X" <> "o" /\ py_lower_char "Z" <> "o" /\ py_lower_char "Z" <> "o")%char)
    by (cbn; repeat split; discriminate).
  assert (Hq : odd_one_out (py_lower_char "X") (py_lower_char "Z") (py_lower_char "Z") 0)
    by (cbn; split; [reflexivity | discriminate]).
  split; [exact Hn|]; split; [exact Hq|].
  exact (check_for_exits_block_free "X" "Z" "Z" "" 0 (0, 0, 0) [] 2 Hn Hq).
Defined.

(** Occupying more cells never opens an exit: with [occupied] included in
    [occupied'], the count for [occupied'] is at most the count for
    [occupied], and each of its beams is one of the beams for [occupied]. *)
Theorem check_for_exits_occupied_mono n k occ occ' ab L c nb c' nb' :
  incl occ occ' ->
  check_for_exits n k occ ab L = Some (c, nb) ->
  check_for_exits n k occ' ab L = Some (c', nb') ->
  c' <= c /\ incl nb' nb.
Proof.
  intros Hinc H H'.
  assert (Hnn : forall t, check_is_exit n k t <> None)
    by (intros t; exact (cfe_not_none _ _ _ _ _ _ t H)).
  rewrite cfe_eq in H, H' by exact Hnn.
  remember (filter (exit_open n k occ ab L) directional_array) as F eqn:HF.
  remember (filter (exit_open n k occ' ab L) directional_array) as F' eqn:HF'.
  injection H as <- <-; injection H' as <- <-.
  split.
  - rewrite HF, HF'.
    apply Nat2Z.inj_le, filter_length_mono; intros d; apply exit_open_mono; exact Hinc.
  - intros b Hb; apply in_map_iff in Hb as [d [<- Hd]].
    apply (in_map (fun d => exit_beam n (shift n d) L)).
    rewrite HF' in Hd; rewrite HF.
    apply filter_In in Hd as [Hd Ho]; apply filter_In.
    split; [exact Hd | exact (exit_open_mono n k occ occ' ab L d Hinc Ho)].
Qed.

Lemma check_for_exits_occupied_mono_witness :
  incl [(0, 0, 5)] [(0, 0, 5); (0, 0, 2)]
  /\ check_for_exits (0, 0, 0) (Some "zxo"%string) [(0, 0, 5)] [] 3
     = Some (2, [[(0, 0, 1); (0, 0, 2)]; [(0, 0, -1); (0, 0, -2)]])
  /\ check_for_exits (0, 0, 0) (Some "zxo"%string) [(0, 0, 5); (0, 0, 2)] [] 3
     = Some (1, [[(0, 0, -1); (0, 0, -2)]])
  /\ 1 <= 2 /\ incl [[(0, 0, -1); (0, 0, -2)]] [[(0, 0, 1); (0, 0, 2)]; [(0, 0, -1); (0, 0, -2)]].
Proof.
  assert (Hi : incl [(0, 0, 5)] [(0, 0, 5); (0, 0, 2)])
    by (intros x [<- | []]; left; reflexivity).
  assert (H1 : check_for_exits (0, 0, 0) (Some "zxo"%string) [(0, 0, 5)] [] 3
               = Some (2, [[(0, 0, 1); (0, 0, 2)]; [(0, 0, -1); (0, 0, -2)]]))
    by (vm_compute; reflexivity).
  assert (H2 : check_for_exits (0, 0, 0) (Some "zxo"%string) [(0, 0, 5); (0, 0, 2)] [] 3
               = Some (1, [[(0, 0, -1); (0, 0, -2)]]))
    by (vm_compute; reflexivity).
  split; [exact Hi|]; split; [exact H1|]; split; [exact H2|].
  exact (check_for_exits_occupied_mono _ _ _ _ _ _ _ _ _ _ Hi H1 H2).
Defined.

(** ** generate_tentative_target_positions *)

Lemma single_moves_shift sx sy sz :
  [(sx + 3, sy, sz); (sx - 3, sy, sz); (sx, sy + 3, sz);
   (sx, sy - 3, sz); (sx, sy, sz + 3); (sx, sy, sz - 3)]
  = map (shift (sx, sy, sz)) [(3, 0, 0); (-3, 0, 0); (0, 3, 0); (0, -3, 0); (0, 0, 3); (0, 0, -3)].
Proof. cbn; rewrite !Z.add_0_r; reflexivity. Qed.

(** The set of triple moves from [s] is the one from the origin, translated. *)
Lemma triple_moves_shift s : triple_moves s = map (shift s) (triple_moves (0, 0, 0)).
Proof.
  destruct s as [[sx sy] sz].
  unfold triple_moves; cbn -[py_set_add].
  repeat rewrite <- py_set_add_shift.
  reflexivity.
Qed.

Lemma single_moves_origin_iff d :
  In d [(3, 0, 0); (-3, 0, 0); (0, 3, 0); (0, -3, 0); (0, 0, 3); (0, 0, -3)] <-> one_axis_move d.
Proof.
  destruct d as [[dx dy] dz]; unfold one_axis_move, pm3; split.
  - intros H; repeat (destruct H as [H | H]; [inversion H; subst; lia|]); destruct H.
  - intros H; cbn.
    destruct H as [[[-> | ->] [-> ->]] | [[-> [[-> | ->] ->]] | [-> [-> [-> | ->]]]]]; tauto.
Qed.

Lemma triple_moves_origin_iff d : In d (triple_moves (0, 0, 0)) <-> corner_move d.
Proof.
  destruct d as [[dx dy] dz]; unfold corner_move, pm3; split.
  - intros H; vm_compute in H.
    repeat (destruct H as [H | H]; [inversion H; subst; lia|]); destruct H.
  - intros H; vm_compute.
    destruct H as [[-> | ->] [[-> | ->] [-> | ->]]]; tauto.
Qed.

Lemma offsets_inv s step occ M :
  NoDup M ->
  (forall d, In d M -> (let '(dx, dy, dz) := d in Z.abs dx + Z.abs dy + Z.abs dz) = step) ->
  far_inv s step occ (filter (not_occupied occ) (map (shift s) M)).
Proof.
  intros Hnd Hm; split.
  - apply NoDup_filter, NoDup_map_inj; [apply shift_inj | exact Hnd].
  - intros c Hc; apply filter_In in Hc as [Hc Ho]; apply in_map_iff in Hc as [d [<- Hd]].
    split; [rewrite manhattan_shift; exact (Hm d Hd)|].
    unfold not_occupied in Ho; apply negb_true_iff, coord_in_false in Ho; exact Ho.
Qed.

Lemma far_inv_sound s step occ r :
  step mod 3 = 0 -> far_inv s step occ r ->
  NoDup r /\ forall c, In c r -> manhattan s c = step /\ is_move_allowed s c = true /\ ~ In c occ.
Proof.
  intros Hmod [Hnd Hall]; split; [exact Hnd|]; intros c Hc.
  destruct (Hall c Hc) as [Hm Ho]; split; [exact Hm|]; split; [|exact Ho].
  unfold is_move_allowed; rewrite Hm, Hmod; reflexivity.
Qed.

Lemma filter_shift_in occ s M c :
  In c (filter (not_occupied occ) (map (shift s) M))
  <-> (exists d, In d M /\ c = shift s d) /\ ~ In c occ.
Proof.
  rewrite filter_In, in_map_iff; unfold not_occupied; rewrite negb_true_iff, coord_in_false.
  split; intros [[d [H1 H2]] H3]; split; try exact H3; exists d; split; auto.
Qed.

(** Whatever the step, the occupied list and the random draws, the
    generator returns (it never raises), its candidates are distinct, and
    each lies at Manhattan distance exactly [step] from the source, passes
    [is_move_allowed] and is not occupied.  A step that is not one of 3, 6,
    9 or a larger multiple of 3 yields no candidate. *)
Theorem generate_tentative_target_positions_sound rnd s step occ :
  exists r, generate_tentative_target_positions rnd s step occ = Some r
    /\ NoDup r
    /\ forall c, In c r -> manhattan s c = step /\ is_move_allowed s c = true /\ ~ In c occ.
Proof.
  destruct s as [[sx sy] sz] eqn:Es; unfold generate_tentative_target_positions.
  destruct (step =? 3) eqn:E3; [apply Z.eqb_eq in E3; subst step|].
  { rewrite single_moves_shift; eexists; split; [reflexivity|].
    apply far_inv_sound; [reflexivity|]; apply offsets_inv.
    - repeat constructor; cbn; intros H; repeat (destruct H as [H | H]; [discriminate H|]); exact H.
    - intros d Hd; repeat (destruct Hd as [<- | Hd]; [reflexivity|]); destruct Hd. }
  destruct (step =? 6) eqn:E6; [apply Z.eqb_eq in E6; subst step|].
  { rewrite double_moves_shift; eexists; split; [reflexivity|].
    apply far_inv_sound; [reflexivity|]; apply offsets_inv.
    - vm_compute; repeat constructor; cbn;
        intros H; repeat (destruct H as [H | H]; [discriminate H|]); exact H.
    - intros d Hd; apply double_moves_origin_iff in Hd; destruct d as [[dx dy] dz].
      unfold two_axis_move, pm3 in Hd.
      destruct Hd as [[[-> | ->] [[-> | ->] ->]] | [[[-> | ->] [-> [-> | ->]]] | [-> [[-> | ->] [-> | ->]]]]];
        reflexivity. }
  destruct (step =? 9) eqn:E9; [apply Z.eqb_eq in E9; subst step|].
  { rewrite triple_moves_shift; eexists; split; [reflexivity|].
    apply far_inv_sound; [reflexivity|]; apply offsets_inv.
    - vm_compute; repeat constructor; cbn;
        intros H; repeat (destruct H as [H | H]; [discriminate H|]); exact H.
    - intros d Hd; apply triple_moves_origin_iff in Hd; destruct d as [[dx dy] dz].
      unfold corner_move, pm3 in Hd.
      destruct Hd as [[-> | ->] [[-> | ->] [-> | ->]]]; reflexivity. }
  destruct ((9 <? step) && (step mod 3 =? 0)) eqn:Ef.
  - apply andb_true_iff in Ef as [Hlt Hmod]; apply Z.ltb_lt in Hlt; apply Z.eqb_eq in Hmod.
    destruct (far_loop_spec (S (Z.to_nat max_attempts)) rnd 0 s step occ [] 0)
      as [r [a [Hrun [Hinv _]]]];
      [lia | split; [constructor | intros c []] | unfold max_attempts; lia | cbn; lia |].
    unfold far_search; rewrite <- Es, Hrun.
    exists r; split; [reflexivity|]; apply far_inv_sound; assumption.
  - exists []; split; [reflexivity|]; split; [constructor | intros c []].
Qed.

(** For [step = 3] the candidates are exactly the source moved by [+-3]
    along one axis, minus the occupied cells. *)
Theorem generate_single_moves rnd s occ c :
  (exists r, generate_tentative_target_positions rnd s 3 occ = Some r /\ In c r)
  <-> (exists d, one_axis_move d /\ c = shift s d) /\ ~ In c occ.
Proof.
  destruct s as [[sx sy] sz]; unfold generate_tentative_target_positions; cbn [Z.eqb Pos.eqb].
  rewrite single_moves_shift;
  remember (filter (not_occupied occ) (map (shift _) _)) as F eqn:HF; split.
  - intros [r [Hr Hc]]; injection Hr as <-; rewrite HF in Hc.
    apply filter_shift_in in Hc as [[d [Hd ->]] Ho].
    split; [exists d; split; [apply single_moves_origin_iff; exact Hd | reflexivity] | exact Ho].
  - intros [[d [Hd ->]] Ho]; eexists; split; [reflexivity|].
    rewrite HF; apply filter_shift_in; split; [|exact Ho].
    exists d; split; [apply single_moves_origin_iff; exact Hd | reflexivity].
Qed.

(** For [step = 9] the test [abs(dx)+abs(dy)+abs(dz) == 9] always holds:
    the candidates are exactly the eight corners [(+-3, +-3, +-3)] around
    the source, minus the occupied cells. *)
Theorem generate_triple_moves rnd s occ c :
  (exists r, generate_tentative_target_positions rnd s 9 occ = Some r /\ In c r)
  <-> (exists d, corner_move d /\ c = shift s d) /\ ~ In c occ.
Proof.
  destruct s as [[sx sy] sz] eqn:Es; unfold generate_tentative_target_positions.
  cbn [Z.eqb Pos.eqb]; rewrite <- Es, triple_moves_shift;
  remember (filter (not_occupied occ) (map (shift _) _)) as F eqn:HF; split.
  - intros [r [Hr Hc]]; injection Hr as <-; rewrite HF in Hc.
    apply filter_shift_in in Hc as [[d [Hd ->]] Ho].
    split; [exists d; split; [apply triple_moves_origin_iff; exact Hd | reflexivity] | exact Ho].
  - intros [[d [Hd ->]] Ho]; eexists; split; [reflexivity|].
    rewrite HF; apply filter_shift_in; split; [|exact Ho].
    exists d; split; [apply triple_moves_origin_iff; exact Hd | reflexivity].
Qed.

(** With nothing occupied, step 9 gives eight distinct candidates. *)
Theorem generate_triple_moves_count rnd s :
  exists r, generate_tentative_target_positions rnd s 9 [] = Some r
    /\ length r = 8%nat /\ NoDup r.
Proof.
  destruct s as [[sx sy] sz] eqn:Es; unfold generate_tentative_target_positions.
  cbn [Z.eqb Pos.eqb]; rewrite <- Es, triple_moves_shift, filter_not_occupied_nil.
  eexists; split; [reflexivity|]; split.
  - rewrite length_map; vm_compute; reflexivity.
  - apply NoDup_map_inj; [apply shift_inj|].
    vm_compute; repeat constructor; cbn;
      intros H; repeat (destruct H as [H | H]; [discriminate H|]); exact H.
Qed.

(** A step that is not a positive multiple of 3 (including 0 and any
    negative step) falls through every branch: no candidate. *)
Theorem generate_tentative_target_positions_other_steps rnd s step occ :
  step <= 0 \/ step mod 3 <> 0 ->
  generate_tentative_target_positions rnd s step occ = Some [].
Proof.
  intros Hs; destruct s as [[sx sy] sz]; unfold generate_tentative_target_positions.
  assert (H3 : step <> 3) by (intros ->; destruct Hs as [Hs|Hs]; [lia | apply Hs; reflexivity]).
  assert (H6 : step <> 6) by (intros ->; destruct Hs as [Hs|Hs]; [lia | apply Hs; reflexivity]).
  assert (H9 : step <> 9) by (intros ->; destruct Hs as [Hs|Hs]; [lia | apply Hs; reflexivity]).
  rewrite (proj2 (Z.eqb_neq _ _) H3), (proj2 (Z.eqb_neq _ _) H6), (proj2 (Z.eqb_neq _ _) H9).
  destruct Hs as [Hs|Hs].
  - replace (9 <? step) with false by (symmetry; apply Z.ltb_ge; lia); reflexivity.
  - rewrite (proj2 (Z.eqb_neq _ _) Hs), andb_false_r; reflexivity.
Qed.

Lemma generate_tentative_target_positions_other_steps_witness :
  (0 <= 0 \/ 0 mod 3 <> 0)
  /\ (-3 <= 0 \/ -3 mod 3 <> 0)
  /\ (7 <= 0 \/ 7 mod 3 <> 0)
  /\ generate_tentative_target_positions (fun _ => O) (0, 0, 0) 0 [] = Some []
  /\ generate_tentative_target_positions (fun _ => O) (0, 0, 0) (-3) [] = Some []
  /\ generate_tentative_target_positions (fun _ => O) (0, 0, 0) 7 [] = Some [].
Proof.
  assert (H0 : 0 <= 0 \/ 0 mod 3 <> 0) by (left; lia).
  assert (H1 : -3 <= 0 \/ -3 mod 3 <> 0) by (left; lia).
  assert (H2 : 7 <= 0 \/ 7 mod 3 <> 0) by (right; discriminate).
  split; [exact H0|]; split; [exact H1|]; split; [exact H2|].
  split; [exact (generate_tentative_target_positions_other_steps (fun _ => O) (0, 0, 0) 0 [] H0)|].
  split; [exact (generate_tentative_target_positions_other_steps (fun _ => O) (0, 0, 0) (-3) [] H1)|].
  exact (generate_tentative_target_positions_other_steps (fun _ => O) (0, 0, 0) 7 [] H2).
Defined.

(** ** check_unobstructed *)

(** The beam of [check_unobstructed] has [length_of_beams - 1] cells (none
    when [length_of_beams <= 1]); its [k]-th cell is the source moved
    [k + 1] steps along the signs of the displacement toward the target. *)
Theorem check_unobstructed_beam_cells sx sy sz tx ty tz occ ab L :
  let beam := snd (check_unobstructed (sx, sy, sz) (tx, ty, tz) occ ab L) in
  length beam = Z.to_nat (L - 1)
  /\ forall k, nth_error beam k
     = if Z.of_nat k <? L - 1
       then Some (sx + py_sign (tx - sx) * (Z.of_nat k + 1),
                  sy + py_sign (ty - sy) * (Z.of_nat k + 1),
                  sz + py_sign (tz - sz) * (Z.of_nat k + 1))
       else None.
Proof.
  intros beam; subst beam; rewrite check_unobstructed_beam; unfold exit_beam; split.
  - rewrite !length_map, length_seq; reflexivity.
  - intros k; rewrite !nth_error_map, nth_error_seq.
    destruct (Z.of_nat k <? L - 1) eqn:E.
    + apply Z.ltb_lt in E; replace (Nat.ltb k (Z.to_nat (L - 1))) with true
        by (symmetry; apply Nat.ltb_lt; lia).
      cbn [option_map]; replace (Z.of_nat (1 + k)) with (Z.of_nat k + 1) by lia; reflexivity.
    + apply Z.ltb_ge in E; replace (Nat.ltb k (Z.to_nat (L - 1))) with false
        by (symmetry; apply Nat.ltb_ge; lia).
      reflexivity.
Qed.

(** With a non-empty [occupied] list, the exit is reported unobstructed
    exactly when no cell of its beam is occupied. *)
Theorem check_unobstructed_verdict s t occ ab L :
  occ <> [] ->
  (fst (check_unobstructed s t occ ab L) = true
   <-> forall c, In c (exit_beam s t L) -> ~ In c occ).
Proof.
  intros Hocc; rewrite check_unobstructed_nonempty by exact Hocc; cbn [fst].
  rewrite negb_true_iff; split.
  - intros H c Hc Ho.
    assert (E : existsb (fun c => coord_in c occ) (exit_beam s t L) = true)
      by (apply existsb_exists; exists c; split; [exact Hc | apply coord_in_iff, Ho]).
    congruence.
  - intros H; destruct (existsb _ _) eqn:E; [exfalso|reflexivity].
    apply existsb_exists in E as [c [Hc Ho]]; apply coord_in_iff in Ho; exact (H c Hc Ho).
Qed.

Lemma check_unobstructed_verdict_witness :
  [(2, 0, 0)] <> []
  /\ (fst (check_unobstructed (0, 0, 0) (1, 0, 0) [(2, 0, 0)] [] 3) = true
      <-> forall c, In c (exit_beam (0, 0, 0) (1, 0, 0) 3) -> ~ In c [(2, 0, 0)])
  /\ fst (check_unobstructed (0, 0, 0) (1, 0, 0) [(2, 0, 0)] [] 3) = false.
Proof.
  assert (H : [(2, 0, 0)] <> @nil coord) by discriminate.
  split; [exact H|]; split; [exact (check_unobstructed_verdict (0, 0, 0) (1, 0, 0) _ [] 3 H)|].
  vm_compute; reflexivity.
Defined.

(** ** is_move_allowed *)

Lemma manhattan_sym a b : manhattan a b = manhattan b a.
Proof. destruct a as [[ax ay] az], b as [[bx by'] bz]; unfold manhattan; lia. Qed.

Lemma manhattan_shift2 a b d : manhattan (shift a d) (shift b d) = manhattan a b.
Proof.
  destruct a as [[ax ay] az], b as [[bx by'] bz], d as [[dx dy] dz]; unfold manhattan, shift.
  replace (bx + dx - (ax + dx)) with (bx - ax) by lia;
  replace (by' + dy - (ay + dy)) with (by' - ay) by lia;
  replace (bz + dz - (az + dz)) with (bz - az) by lia; reflexivity.
Qed.

(** [is_move_allowed] is symmetric in its two coordinates and unchanged
    when both are moved by the same offset. *)
Theorem is_move_allowed_sym_shift a b d :
  is_move_allowed a b = is_move_allowed b a
  /\ is_move_allowed (shift a d) (shift b d) = is_move_allowed a b.
Proof. unfold is_move_allowed; rewrite manhattan_sym, manhattan_shift2, manhattan_sym; split; reflexivity. Qed.

(** ** prune_all_beams *)

Lemma not_occupied_all occ (b : beam) :
  forallb (not_occupied occ) b = true <-> forall c, In c b -> ~ In c occ.
Proof.
  rewrite forallb_forall; unfold not_occupied; split; intros H c Hc.
  - apply coord_in_false, negb_true_iff, H, Hc.
  - apply negb_true_iff, coord_in_false, H, Hc.
Qed.

(** The pruned collection holds no empty group; a beam appears in it
    exactly when it appears in the input and none of its cells is
    occupied.  Pruning never adds a group. *)
Theorem prune_all_beams_members all_beams occ :
  (forall nb, In nb (prune_all_beams all_beams occ) -> nb <> [])
  /\ (forall b, (exists nb, In nb (prune_all_beams all_beams occ) /\ In b nb)
                <-> (exists nb, In nb all_beams /\ In b nb) /\ forall c, In c b -> ~ In c occ)
  /\ (length (prune_all_beams all_beams occ) <= length all_beams)%nat.
Proof.
  rewrite prune_all_beams_spec; split; [|split].
  - intros nb Hnb; apply filter_In in Hnb as [_ Hne]; intros ->; discriminate.
  - intros b; split.
    + intros [nb [Hnb Hb]]; apply filter_In in Hnb as [Hnb _].
      apply in_map_iff in Hnb as [nb0 [<- Hnb0]]; apply filter_In in Hb as [Hb Hok].
      split; [exists nb0; split; assumption | apply not_occupied_all, Hok].
    + intros [[nb [Hnb Hb]] Hok].
      exists (filter (forallb (not_occupied occ)) nb); split.
      * apply filter_In; split; [apply in_map, Hnb|].
        destruct (filter (forallb (not_occupied occ)) nb) eqn:E; [|reflexivity].
        assert (Hin : In b (filter (forallb (not_occupied occ)) nb))
          by (apply filter_In; split; [exact Hb | apply not_occupied_all, Hok]).
        rewrite E in Hin; destruct Hin.
      * apply filter_In; split; [exact Hb | apply not_occupied_all, Hok].
  - etransitivity; [apply filter_length_le|]; rewrite length_map; reflexivity.
Qed.

(** With nothing occupied, pruning only drops the empty groups. *)
Theorem prune_all_beams_nothing_occupied all_beams :
  prune_all_beams all_beams [] = filter nonempty all_beams.
Proof.
  rewrite prune_all_beams_spec; f_equal.
  induction all_beams as [|nb l IH]; [reflexivity|]; cbn [map]; rewrite IH; f_equal.
  induction nb as [|b nb IHnb]; [reflexivity|]; cbn [filter].
  replace (forallb (not_occupied []) b) with true; [rewrite IHnb; reflexivity|].
  symmetry; apply not_occupied_all; intros c _ [].
Qed.

Lemma coord_in_app c o1 o2 : coord_in c (o1 ++ o2) = coord_in c o1 || coord_in c o2.
Proof. unfold coord_in, py_in; rewrite map_app, existsb_app; reflexivity. Qed.

Lemma forallb_not_occupied_app o1 o2 (b : beam) :
  forallb (not_occupied (o1 ++ o2)) b = forallb (not_occupied o1) b && forallb (not_occupied o2) b.
Proof.
  induction b as [|c b IH]; [reflexivity|]; cbn [forallb]; rewrite IH.
  unfold not_occupied; rewrite coord_in_app, negb_orb.
  destruct (negb (coord_in c o1)), (negb (coord_in c o2)); cbn [andb];
    rewrite ?andb_false_r; reflexivity.
Qed.

Lemma filter_andb {A : Type} (p q : A -> bool) (l : list A) :
  filter (fun x => p x && q x) l = filter q (filter p l).
Proof.
  induction l as [|x l IH]; [reflexivity|]; cbn [filter].
  destruct (p x); cbn [filter andb]; [destruct (q x)|]; rewrite IH; reflexivity.
Qed.

Lemma filter_nonempty_map_map {A : Type} (f g : list A -> list A) (l : list (list A)) :
  g [] = [] ->
  filter nonempty (map g (filter nonempty (map f l))) = filter nonempty (map (fun x => g (f x)) l).
Proof.
  intros Hg; induction l as [|x l IH]; [reflexivity|]; cbn [map filter].
  destruct (f x) as [|y ys] eqn:E; cbn [nonempty]; [rewrite Hg; exact IH|].
  cbn [map filter]; rewrite IH; reflexivity.
Qed.

(** Pruning twice, for [occupied1] then [occupied2], is pruning once for
    the two lists together. *)
Theorem prune_all_beams_compose all_beams occ1 occ2 :
  prune_all_beams (prune_all_beams all_beams occ1) occ2 = prune_all_beams all_beams (occ1 ++ occ2).
Proof.
  rewrite !prune_all_beams_spec, filter_nonempty_map_map by reflexivity.
  f_equal; apply map_ext; intros nb.
  rewrite <- filter_andb; apply filter_ext; intros b; symmetry; apply forallb_not_occupied_app.
Qed.

(** ** rotate_o_types *)

(** For any kind whose first three characters hold one ['o'], the rotation
    keeps the ['o'] in place and swaps the two other characters; everything
    after the third character is dropped, and an ["h"] is appended when the
    kind contains an ['h'] anywhere (also among its first three
    characters). *)
Theorem rotate_o_types_pipe (c0 c1 c2 : ascii) (rest : string) (p : nat) :
  o_position c0 c1 c2 p ->
  rotate_o_types (String c0 (String c1 (String c2 rest)))
  = Some (String.append
            (match p with
             | O => String "o" (String c2 (String c1 ""))
             | 1%nat => String c2 (String "o" (String c0 ""))
             | _ => String c1 (String c0 (String "o" ""))
             end)
            (if str_in "h" (String c0 (String c1 (String c2 rest))) then "h" else "")).
Proof.
  intros Ho; destruct p as [|[|[|p]]]; cbn [o_position] in Ho; [| | |contradiction];
    destruct Ho as [H0 [H1 H2]]; subst; ascii_neq_facts; unfold rotate_o_types;
    repeat (progress (cbn -[Ascii.eqb str_in])
            || match goal with E : Ascii.eqb _ _ = _ |- _ => rewrite E end
            || rewrite Ascii.eqb_refl);
    destruct (str_in "h" _); reflexivity.
Qed.

Lemma rotate_o_types_pipe_witness :
  o_position "h" "x" "o" 2
  /\ rotate_o_types "hxoyz" = Some "xhoh"%string.
Proof.
  assert (Ho : o_position "h" "x" "o" 2) by (cbn; repeat split; first [reflexivity | discriminate]).
  split; [exact Ho|].
  exact (rotate_o_types_pipe "h" "x" "o" "yz" 2 Ho).
Defined.

Lemma str_index_get c s i : str_index c s = Some i -> String.get i s = Some c.
Proof.
  revert i; induction s as [|c' s IH]; intros i; cbn [str_index]; [discriminate|].
  destruct (Ascii.eqb c c') eqn:E.
  - intros [= <-]; apply Ascii.eqb_eq in E; subst; reflexivity.
  - destruct (str_index c s) as [j|]; [|discriminate]; intros [= <-]; apply IH; reflexivity.
Qed.

(** A kind with no ['o'] among its first three characters is not rotated:
    [pipe_type.index("o")] raises when there is no ['o'], and
    [available_indexes.remove] raises when the first ['o'] comes later. *)
Theorem rotate_o_types_no_o (k : string) :
  (forall i, (i < 3)%nat -> String.get i k <> Some "o"%char) ->
  rotate_o_types k = None.
Proof.
  intros Hk; unfold rotate_o_types.
  destruct (str_index "o" k) as [io|] eqn:E; [|reflexivity].
  apply str_index_get in E.
  destruct io as [|[|[|io]]]; [exfalso; refine (Hk _ _ E); lia..|].
  reflexivity.
Qed.

Lemma rotate_o_types_no_o_witness :
  (forall i, (i < 3)%nat -> String.get i "zxzoh" <> Some "o"%char)
  /\ rotate_o_types "zxzoh" = None.
Proof.
  assert (H : forall i, (i < 3)%nat -> String.get i "zxzoh" <> Some "o"%char)
    by (intros [|[|[|i]]] Hi; [discriminate | discriminate | discriminate | lia]).
  split; [exact H | exact (rotate_o_types_no_o "zxzoh" H)].
Defined.

(** ** adjust_hadamards_direction *)

(** Wherever [adjust_hadamards_direction] returns, its result is the
    rotation of the kind by [rotate_o_types]: the table lists rotations. *)
Theorem adjust_hadamards_direction_rotates (k k' : string) :
  adjust_hadamards_direction k = Some k' -> rotate_o_types k = Some k'.
Proof.
  unfold adjust_hadamards_direction; destruct (existsb _ _); intros H;
    apply dict_get_some in H as [k0 [Hin Heq]]; apply String.eqb_eq in Heq; subst k0;
    vm_compute in Hin;
    repeat (destruct Hin as [Hin | Hin]; [injection Hin as <- <-; vm_compute; reflexivity|]);
    destruct Hin.
Qed.

Lemma adjust_hadamards_direction_rotates_witness :
  adjust_hadamards_direction "ozxh" = Some "oxzh"%string
  /\ rotate_o_types "ozxh" = Some "oxzh"%string.
Proof.
  assert (H : adjust_hadamards_direction "ozxh" = Some "oxzh"%string) by (vm_compute; reflexivity).
  split; [exact H | exact (adjust_hadamards_direction_rotates _ _ H)].
Defined.

(** ** build_newly_indexed_path_dict: errors *)

Lemma index_paths_empty_path eps c IP :
  (exists ep, In ep eps /\ path_nodes ep = []) -> index_paths eps c IP = None.
Proof.
  revert c IP; induction eps as [|ep eps IH]; intros c IP [ep0 [Hin Hnil]]; [destruct Hin|].
  cbn [index_paths]; destruct Hin as [<- | Hin].
  - unfold index_edge_path; destruct (src_tgt_ids ep); rewrite Hnil; reflexivity.
  - destruct (index_edge_path c ep) as [[ip c']|]; [|reflexivity].
    apply IH; exists ep0; split; assumption.
Qed.

(** An edge path without nodes makes [nodes_in_path[0]] raise. *)
Theorem build_newly_indexed_path_dict_empty_path eps :
  (exists ep, In ep eps /\ path_nodes ep = []) -> build_newly_indexed_path_dict eps = None.
Proof.
  intros H; unfold build_newly_indexed_path_dict; rewrite index_paths_empty_path by exact H.
  reflexivity.
Qed.

Lemma build_newly_indexed_path_dict_empty_path_witness :
  (exists ep, In ep [{| src_tgt_ids := (0, 1); path_nodes := [((0, 0, 0), "xzz"%string)] |};
                     {| src_tgt_ids := (1, 2); path_nodes := [] |}]
              /\ path_nodes ep = [])
  /\ build_newly_indexed_path_dict
       [{| src_tgt_ids := (0, 1); path_nodes := [((0, 0, 0), "xzz"%string)] |};
        {| src_tgt_ids := (1, 2); path_nodes := [] |}] = None.
Proof.
  assert (H : exists ep, In ep [{| src_tgt_ids := (0, 1); path_nodes := [((0, 0, 0), "xzz"%string)] |};
                               {| src_tgt_ids := (1, 2); path_nodes := [] |}]
                         /\ path_nodes ep = [])
    by (eexists; split; [right; left; reflexivity | reflexivity]).
  split; [exact H | exact (build_newly_indexed_path_dict_empty_path _ H)].
Defined.

(** A successful pass over an item's entries means an odd number of entries:
    with an even number the last entry sits at an odd position and
    [keys[i + 1]] is out of range. *)
Lemma latice_item_odd keys i entries ns es r :
  latice_item keys i entries ns es = Some r -> length keys = (i + length entries)%nat ->
  entries <> [] -> Nat.odd (length keys) = true.
Proof.
  revert i ns es; induction entries as [|[k v] rest IH]; intros i ns es H Hlen Hne;
    [congruence|].
  cbn [length] in Hlen; cbn [latice_item] in H.
  destruct rest as [|e rest']; cbn [length] in Hlen.
  - assert (Hk : length keys = S i) by lia; rewrite Hk, Nat.odd_succ.
    destruct (Nat.even i) eqn:Ei; [reflexivity|].
    destruct (nth_error keys (i - 1)); [|discriminate].
    rewrite (proj2 (nth_error_None keys (S i)) ltac:(lia)) in H; discriminate.
  - destruct (Nat.even i).
    + eapply IH; [exact H | cbn [length] in *; lia | discriminate].
    + destruct (nth_error keys (i - 1)) as [a|]; [|discriminate].
      destruct (nth_error keys (S i)) as [b|]; [|discriminate].
      eapply IH; [exact H | cbn [length] in *; lia | discriminate].
Qed.

Lemma latice_loop_odd items ns es r :
  latice_loop items ns es = Some r ->
  forall P it, In (P, it) items -> it <> [] -> Nat.odd (length it) = true.
Proof.
  revert ns es; induction items as [|[P0 it0] rest IH]; intros ns es H P it Hin Hne;
    [destruct Hin|].
  cbn [latice_loop] in H.
  destruct (latice_item (map fst it0) 0 it0 ns es) as [[ns1 es1]|] eqn:E; [|discriminate].
  destruct Hin as [Heq | Hin].
  - injection Heq as <- <-.
    rewrite <- (length_map fst it0); eapply latice_item_odd; [exact E | rewrite length_map; reflexivity | exact Hne].
  - eapply IH; eassumption.
Qed.

(** With distinct start and end ids on each path and distinct (start, end)
    pairs, the function returns exactly when every path has an odd number
    of elements (blocks and pipes alternate, from block to block); a path
    with an even number of elements makes [keys[i + 1]] raise. *)
Theorem build_newly_indexed_path_dict_some_iff (edge_paths : list edge_path) :
  (forall ep, In ep edge_paths -> fst (src_tgt_ids ep) <> snd (src_tgt_ids ep)) ->
  NoDup (map src_tgt_ids edge_paths) ->
  (exists nodes edges, build_newly_indexed_path_dict edge_paths = Some (nodes, edges))
  <-> (forall ep, In ep edge_paths -> Nat.odd (length (path_nodes ep)) = true).
Proof.
  intros Hne Hnd; split.
  - intros [nodes [edges H]] ep Hin.
    assert (Hnn : path_nodes ep <> []).
    { unfold build_newly_indexed_path_dict in H.
      destruct (index_paths edge_paths (max_endpoint_id edge_paths + 1) []) as [IP|] eqn:E;
        [|discriminate].
      exact (index_paths_nonempty _ _ _ _ E ep Hin). }
    destruct (build_items _ _ _ H) as [IP [Hiff Hloop]].
    apply In_nth_error in Hin as [j Hj].
    set (it := index_expected (max_endpoint_id edge_paths + 1 + id_offset edge_paths j) ep).
    assert (Hit : In (src_tgt_ids ep, it) IP).
    { apply Hiff; exists j, ep; split; [exact Hj|]; split; [reflexivity|]; split; [reflexivity|].
      intros k ep' Hjk Hk Heq; pose proof (nodup_map_nth _ _ _ _ _ _ Hnd Hk Hj Heq); lia. }
    assert (Hlen : length it = length (path_nodes ep))
      by (apply index_expected_length, Hne, (nth_error_In _ _ Hj)).
    rewrite <- Hlen; apply (latice_loop_odd _ _ _ _ Hloop _ _ Hit).
    intros Hit0; rewrite Hit0 in Hlen; cbn in Hlen; destruct (path_nodes ep); [congruence | discriminate].
  - intros Hodd.
    set (c := max_endpoint_id edge_paths + 1).
    destruct (max_endpoint_id_bound edge_paths) as [H0 Hmax].
    destruct (index_paths_spec edge_paths c []) as [IP [EIP [_ Hiff]]].
    { intros ep Hin; pose proof (Hmax ep Hin); repeat split; [|unfold c; lia | unfold c; lia].
      intros Hn; specialize (Hodd ep Hin); rewrite Hn in Hodd; discriminate. }
    { constructor. }
    destruct (latice_loop_some IP [] []) as [nodes [edges Hloop]].
    { intros P it H; apply Hiff in H as [[j [ep [Hj [_ [-> _]]]]] | [[] _]].
      pose proof (nth_error_In _ _ Hj) as Hin.
      rewrite index_expected_length by (apply Hne; exact Hin); apply Hodd, Hin. }
    exists nodes, edges; unfold build_newly_indexed_path_dict; fold c; rewrite EIP; exact Hloop.
Qed.

Lemma build_newly_indexed_path_dict_some_iff_witness :
  (forall ep, In ep [{| src_tgt_ids := (0, 1);
                        path_nodes := [((0, 0, 0), "xzz"%string); ((1, 0, 0), "zxo"%string)] |}] ->
     fst (src_tgt_ids ep) <> snd (src_tgt_ids ep))
  /\ NoDup (map src_tgt_ids [{| src_tgt_ids := (0, 1);
                        path_nodes := [((0, 0, 0), "xzz"%string); ((1, 0, 0), "zxo"%string)] |}])
  /\ ((exists nodes edges, build_newly_indexed_path_dict
         [{| src_tgt_ids := (0, 1);
             path_nodes := [((0, 0, 0), "xzz"%string); ((1, 0, 0), "zxo"%string)] |}]
         = Some (nodes, edges))
      <-> (forall ep, In ep [{| src_tgt_ids := (0, 1);
                        path_nodes := [((0, 0, 0), "xzz"%string); ((1, 0, 0), "zxo"%string)] |}] ->
             Nat.odd (length (path_nodes ep)) = true))
  /\ build_newly_indexed_path_dict
       [{| src_tgt_ids := (0, 1);
           path_nodes := [((0, 0, 0), "xzz"%string); ((1, 0, 0), "zxo"%string)] |}] = None.
Proof.
  assert (H1 : forall ep, In ep [{| src_tgt_ids := (0, 1);
                        path_nodes := [((0, 0, 0), "xzz"%string); ((1, 0, 0), "zxo"%string)] |}] ->
                 fst (src_tgt_ids ep) <> snd (src_tgt_ids ep))
    by (intros ep [<- | []]; cbn; discriminate).
  assert (H2 : NoDup (map src_tgt_ids [{| src_tgt_ids := (0, 1);
                        path_nodes := [((0, 0, 0), "xzz"%string); ((1, 0, 0), "zxo"%string)] |}]))
    by (repeat constructor; intros []).
  split; [exact H1|]; split; [exact H2|]; split.
  - exact (build_newly_indexed_path_dict_some_iff _ H1 H2).
  - vm_compute; reflexivity.
Defined.
